(** * Product-Mapping: the canonicalization engine of
    [pipeline/standardization.py]

    A shallow embedding of the master-table construction
    ([_create_child_to_parent_map], [_generate_stable_uuid],
    [create_parent_child_master_table]) together with the pieces of the
    Python runtime it calls ([re.sub], [str.strip], [sorted], [uuid.uuid5]),
    of its caller [run_unified_pipeline] in [main.py] with [write_to_db],
    and of [generate_parent_id] and [validate_uuid] of the dynamic mapping
    scripts, followed by the properties of this code. *)

From Stdlib Require Import ZArith NArith Lia.
From stdpp Require Import base option list sorting strings gmap.

Local Open Scope N_scope.

(** ** Python strings

    A Python [str] is a sequence of Unicode code points. *)

Abbreviation codepoint := N (only parsing).
Abbreviation str := (list N) (only parsing).

(** [str.isspace] on one code point ([Py_UNICODE_ISSPACE]); the class [\s]
    of [re] on [str] patterns and the characters removed by [str.strip()]
    are this same set. *)
Definition is_space (c : codepoint) : bool :=
  ((0x09 <=? c) && (c <=? 0x0D)) || ((0x1C <=? c) && (c <=? 0x20))
  || (c =? 0x85) || (c =? 0xA0) || (c =? 0x1680)
  || ((0x2000 <=? c) && (c <=? 0x200A))
  || (c =? 0x2028) || (c =? 0x2029) || (c =? 0x202F) || (c =? 0x205F)
  || (c =? 0x3000).

Definition SPACE : codepoint := 0x20.

(** [re.sub(r'\s+', ' ', s)]: the scanner replaces every maximal run of
    whitespace by one U+0020.  [in_run] records that the previous code point
    belonged to the run being replaced. *)
Fixpoint sub_ws (in_run : bool) (s : str) : str :=
  match s with
  | [] => []
  | c :: s' =>
      if is_space c
      then (if in_run then sub_ws true s' else SPACE :: sub_ws true s')
      else c :: sub_ws false s'
  end.

Definition re_sub_ws (s : str) : str := sub_ws false s.

(** [str.lstrip()], [str.rstrip()] and [str.strip()] without argument. *)
Fixpoint lstrip (s : str) : str :=
  match s with
  | [] => []
  | c :: s' => if is_space c then lstrip s' else s
  end.

Definition rstrip (s : str) : str := reverse (lstrip (reverse s)).

Definition strip (s : str) : str := rstrip (lstrip s).

(** What the engine takes from its runtime and from pandas without fixing
    it: the Unicode case mapping [str.lower], the type of the values of the
    [raw_product_id] column with their [astype(str)], and the type of the
    values of the [created_at] column with
    [pd.to_datetime(col, errors='coerce', utc=True)] on one non-null value
    of the column [col] ([None] is [NaT]; a timestamp is an instant, in
    nanoseconds since the epoch). *)
Class PyRuntime : Type := {
  lower : str → str;
  RawId : Type;
  astype_str : RawId → str;
  RawTs : Type;
  to_datetime : list (option RawTs) → RawTs → option Z;
}.

(** The cleaning expression shared by lines 83 and 115,
    [re.sub(r'\s+', ' ', x).strip().lower()]. *)
Definition clean_name `{PyRuntime} (x : str) : str :=
  lower (strip (re_sub_ws x)).

(** [str.lower] restricted to the ASCII letters (identity elsewhere), the
    instance used to run the engine on concrete inputs. *)
Definition ascii_lower_cp (c : codepoint) : codepoint :=
  if (0x41 <=? c) && (c <=? 0x5A) then c + 0x20 else c.

Definition ascii_lower (s : str) : str := ascii_lower_cp <$> s.

(** Shapes of cleaned strings, used to state facts about [clean_name]. *)

(** A string in which every whitespace code point is a single U+0020 that
    does not follow another whitespace ([prev] tells whether the code point
    before the string is whitespace). *)
Fixpoint single_spaced (prev : bool) (t : str) : bool :=
  match t with
  | [] => true
  | c :: t' =>
      if is_space c
      then (c =? SPACE) && negb prev && single_spaced true t'
      else single_spaced false t'
  end.

(** A code point at one end of a string, when there is one, is not
    whitespace. *)
Definition nonspace_end (o : option codepoint) : Prop :=
  match o with Some c => is_space c = false | None => True end.

(** The normal form of whitespace: single spaced, no whitespace at either
    end. *)
Definition ws_normal (t : str) : Prop :=
  single_spaced false t = true ∧ nonspace_end (head t) ∧ nonspace_end (last t).

(** A non-empty string without whitespace. *)
Definition is_word (w : str) : Prop :=
  w ≠ [] ∧ Forall (λ c, is_space c = false) w.

(** String literals of the source, as code points (ASCII only). *)
Definition py (s : String.string) : str :=
  Ascii.N_of_ascii <$> String.list_ascii_of_string s.
Arguments py s%_string.

(** Comparison of two [str], as [<] and [==] of Python compare them: code
    point by code point, a proper prefix first. *)
Fixpoint str_compare (a b : str) : comparison :=
  match a, b with
  | [], [] => Eq
  | [], _ :: _ => Lt
  | _ :: _, [] => Gt
  | x :: a', y :: b' =>
      match x ?= y with
      | Eq => str_compare a' b'
      | c => c
      end
  end.

Definition str_le (a b : str) : Prop := str_compare a b ≠ Gt.
Definition str_lt (a b : str) : Prop := str_compare a b = Lt.

(** ** Results of calls that can raise *)

Inductive exn : Type :=
  | UnicodeEncodeError.

Inductive result (A : Type) : Type :=
  | Ok (a : A)
  | Raise (e : exn).
Arguments Ok {A} a.
Arguments Raise {A} e.

Definition result_map {A B} (f : A → B) (r : result A) : result B :=
  match r with
  | Ok a => Ok (f a)
  | Raise e => Raise e
  end.

Definition result_bind {A B} (r : result A) (f : A → result B) : result B :=
  match r with
  | Ok a => f a
  | Raise e => Raise e
  end.

(** [[f(x) for x in l]] where [f] can raise: the first exception stops the
    loop. *)
Fixpoint result_mapM {A B} (f : A → result B) (l : list A) : result (list B) :=
  match l with
  | [] => Ok []
  | x :: l' =>
      result_bind (f x) (λ y, result_map (cons y) (result_mapM f l'))
  end.

(** ** The [uuid] and [hashlib] modules, as far as [uuid.uuid5] uses them *)

Module Uuid.

(** [name.encode("utf-8")].  A lone surrogate cannot be encoded (the strict
    error handler raises); code points above U+10FFFF do not occur in a
    [str]. *)
Definition utf8_cp (c : codepoint) : option (list N) :=
  if c <? 0x80 then Some [c]
  else if c <? 0x800 then
    Some [N.lor 0xC0 (N.shiftr c 6); N.lor 0x80 (N.land c 0x3F)]
  else if c <? 0x10000 then
    if (0xD800 <=? c) && (c <=? 0xDFFF) then None
    else Some [N.lor 0xE0 (N.shiftr c 12);
               N.lor 0x80 (N.land (N.shiftr c 6) 0x3F);
               N.lor 0x80 (N.land c 0x3F)]
  else if c <? 0x110000 then
    Some [N.lor 0xF0 (N.shiftr c 18);
          N.lor 0x80 (N.land (N.shiftr c 12) 0x3F);
          N.lor 0x80 (N.land (N.shiftr c 6) 0x3F);
          N.lor 0x80 (N.land c 0x3F)]
  else None.

Fixpoint utf8_encode (s : str) : option (list N) :=
  match s with
  | [] => Some []
  | c :: s' =>
      match utf8_cp c, utf8_encode s' with
      | Some b, Some bs => Some (b ++ bs)
      | _, _ => None
      end
  end.

(** *** SHA-1 (FIPS 180-4), on 32-bit words held in [N] *)

Definition w32 (x : N) : N := x mod 2 ^ 32.
Definition add32 (x y : N) : N := w32 (x + y).
Definition rotl32 (n x : N) : N :=
  N.lor (w32 (N.shiftl x n)) (N.shiftr x (32 - n)).
Definition not32 (x : N) : N := N.lxor x 0xFFFFFFFF.

Definition sha1_f (t : nat) (b c d : N) : N :=
  if (t <? 20)%nat then N.lor (N.land b c) (N.land (not32 b) d)
  else if (t <? 40)%nat then N.lxor (N.lxor b c) d
  else if (t <? 60)%nat then
    N.lor (N.lor (N.land b c) (N.land b d)) (N.land c d)
  else N.lxor (N.lxor b c) d.

Definition sha1_k (t : nat) : N :=
  if (t <? 20)%nat then 0x5A827999
  else if (t <? 40)%nat then 0x6ED9EBA1
  else if (t <? 60)%nat then 0x8F1BBCDC
  else 0xCA62C1D6.

(** Big-endian bytes to integer and back ([int.from_bytes(b, 'big')],
    [n.to_bytes(len, 'big')]). *)
Definition int_from_bytes (bs : list N) : N :=
  foldl (λ acc b, N.lor (N.shiftl acc 8) b) 0 bs.

Fixpoint int_to_bytes (len : nat) (n : N) : list N :=
  match len with
  | O => []
  | S len' => int_to_bytes len' (N.shiftr n 8) ++ [N.land n 0xFF]
  end.

(** The message followed by the bit 1, zeros, and its length in bits on 64
    bits, a multiple of 64 bytes in all. *)
Definition sha1_pad (msg : list N) : list N :=
  let len := N.of_nat (length msg) in
  let zeros := N.to_nat ((119 - len mod 64) mod 64) in
  msg ++ [0x80] ++ replicate zeros 0 ++ int_to_bytes 8 (8 * len).

(** The sixteen words of a 64-byte block. *)
Fixpoint block_words (n : nat) (bs : list N) : list N :=
  match n with
  | O => []
  | S n' => int_from_bytes (take 4 bs) :: block_words n' (drop 4 bs)
  end.

(** The message schedule: [w] holds W(0) .. W(t-1); [n] more words are
    appended. *)
Fixpoint sha1_schedule (n : nat) (w : list N) : list N :=
  match n with
  | O => w
  | S n' =>
      let t := length w in
      let x i := w !!! (t - i)%nat in
      sha1_schedule n'
        (w ++ [rotl32 1 (N.lxor (N.lxor (N.lxor (x 3%nat) (x 8%nat)) (x 14%nat))
                           (x 16%nat))])
  end.

Record sha1_state : Type := Sha1State { ha : N; hb : N; hc : N; hd : N; he : N }.

Definition sha1_init : sha1_state :=
  Sha1State 0x67452301 0xEFCDAB89 0x98BADCFE 0x10325476 0xC3D2E1F0.

Fixpoint sha1_rounds (t : nat) (ws : list N) (s : sha1_state) : sha1_state :=
  match ws with
  | [] => s
  | w :: ws' =>
      let '(Sha1State a b c d e) := s in
      let temp :=
        add32 (add32 (add32 (add32 (rotl32 5 a) (sha1_f t b c d)) e) (sha1_k t)) w in
      sha1_rounds (S t) ws' (Sha1State temp a (rotl32 30 b) c d)
  end.

Definition sha1_block (h : sha1_state) (block : list N) : sha1_state :=
  let w := sha1_schedule 64 (block_words 16 block) in
  let s := sha1_rounds 0 w h in
  Sha1State (add32 (ha h) (ha s)) (add32 (hb h) (hb s)) (add32 (hc h) (hc s))
            (add32 (hd h) (hd s)) (add32 (he h) (he s)).

Fixpoint sha1_blocks (n : nat) (h : sha1_state) (bs : list N) : sha1_state :=
  match n with
  | O => h
  | S n' => sha1_blocks n' (sha1_block h (take 64 bs)) (drop 64 bs)
  end.

(** [hashlib.sha1(msg).digest()]. *)
Definition sha1 (msg : list N) : list N :=
  let padded := sha1_pad msg in
  let h := sha1_blocks (length padded / 64) sha1_init padded in
  int_to_bytes 4 (ha h) ++ int_to_bytes 4 (hb h) ++ int_to_bytes 4 (hc h)
  ++ int_to_bytes 4 (hd h) ++ int_to_bytes 4 (he h).

(** *** [uuid.UUID] *)

(** One hexadecimal digit of ['%x']. *)
Definition hex_digit (d : N) : codepoint :=
  if d <? 10 then 0x30 + d else 0x61 + (d - 10).

(** ['%0<width>x' % n], for [n] below [16 ^ width]. *)
Fixpoint hex_pad (width : nat) (n : N) : str :=
  match width with
  | O => []
  | S w => hex_pad w (N.shiftr n 4) ++ [hex_digit (N.land n 0xF)]
  end.

Definition hex_value (c : codepoint) : option N :=
  if (0x30 <=? c) && (c <=? 0x39) then Some (c - 0x30)
  else if (0x61 <=? c) && (c <=? 0x66) then Some (c - 0x61 + 10)
  else if (0x41 <=? c) && (c <=? 0x46) then Some (c - 0x41 + 10)
  else None.

(** [int(hex, 16)] on a string of hexadecimal digits. *)
Fixpoint int_of_hex (acc : N) (s : str) : option N :=
  match s with
  | [] => Some acc
  | c :: s' =>
      match hex_value c with
      | Some d => int_of_hex (16 * acc + d) s'
      | None => None
      end
  end.

(** [UUID(hex)]: the hyphens are removed, thirty-two digits must remain and
    are read as one 128-bit integer, the [int] attribute of the object. *)
Definition UUID_of_hex (hex : str) : option N :=
  let digits := filter (λ c, c ≠ 0x2D) hex in
  if decide (length digits = 32%nat) then int_of_hex 0 digits else None.

(** [UUID(bytes=b, version=v)]: the integer of the sixteen bytes with the
    variant and version bits overwritten.  On Python's unbounded integers
    [x & ~m] clears the bits of [m], which is [N.ldiff x m]. *)
Definition UUID_of_bytes (bytes : list N) (version : N) : N :=
  let int := int_from_bytes bytes in
  let int := N.ldiff int (N.shiftl 0xc000 48) in
  let int := N.lor int (N.shiftl 0x8000 48) in
  let int := N.ldiff int (N.shiftl 0xf000 64) in
  N.lor int (N.shiftl version 76).

(** [UUID.bytes]. *)
Definition UUID_bytes (u : N) : list N := int_to_bytes 16 u.

(** [str(u)]: ['%032x' % u.int] cut into 8-4-4-4-12. *)
Definition UUID_str (u : N) : str :=
  let hex := hex_pad 32 u in
  take 8 hex ++ [0x2D] ++ take 4 (drop 8 hex) ++ [0x2D]
  ++ take 4 (drop 12 hex) ++ [0x2D] ++ take 4 (drop 16 hex) ++ [0x2D]
  ++ drop 20 hex.

(** [uuid.uuid5(namespace, name)]. *)
Definition uuid5 (namespace : N) (name : str) : result N :=
  match utf8_encode name with
  | None => Raise UnicodeEncodeError
  | Some b => Ok (UUID_of_bytes (take 16 (sha1 (UUID_bytes namespace ++ b))) 5)
  end.

(** The version-5 UUID in the words of RFC 4122, section 4.3: the first
    sixteen octets of the SHA-1 hash of the namespace octets followed by the
    name, with the four most significant bits of octet 6 set to the version
    and the two most significant bits of octet 8 set to the variant [10];
    its text is the octets in hexadecimal, grouped 4-2-2-2-6. *)
Definition rfc_uuid5_octets (ns_octets name_octets : list N) : list N :=
  let h := take 16 (sha1 (ns_octets ++ name_octets)) in
  alter (λ o, N.lor (N.land o 0x3F) 0x80) 8%nat
    (alter (λ o, N.lor (N.land o 0x0F) 0x50) 6%nat h).

Definition hex_octet (o : N) : str :=
  [hex_digit (N.shiftr o 4); hex_digit (N.land o 0xF)].

Definition rfc_uuid_text (octets : list N) : str :=
  let hex := octets ≫= hex_octet in
  take 8 hex ++ [0x2D] ++ take 4 (drop 8 hex) ++ [0x2D]
  ++ take 4 (drop 12 hex) ++ [0x2D] ++ take 4 (drop 16 hex) ++ [0x2D]
  ++ drop 20 hex.

End Uuid.

(** ** [pipeline/standardization.py] *)

(** Line 5: [NAMESPACE_UUID = uuid.UUID('6ba7b810-9dad-11d1-80b4-00c04fd430c8')]. *)
Definition NAMESPACE_UUID : N :=
  default 0 (Uuid.UUID_of_hex (py "6ba7b810-9dad-11d1-80b4-00c04fd430c8")).

(** Lines 90-92. *)
Definition _generate_stable_uuid (name : str) : result str :=
  result_map Uuid.UUID_str (Uuid.uuid5 NAMESPACE_UUID name).

(** [Series.unique()]: the distinct values, in order of first appearance. *)
Fixpoint unique_from `{EqDecision A} (seen l : list A) : list A :=
  match l with
  | [] => []
  | x :: l' =>
      if decide (x ∈ seen) then unique_from seen l'
      else x :: unique_from (x :: seen) l'
  end.

Definition unique `{EqDecision A} (l : list A) : list A := unique_from [] l.

#[global] Instance str_le_dec : RelDecision str_le :=
  λ a b, decide (str_compare a b ≠ Gt).

(** [sorted(l)] on a list of [str]. *)
Definition sorted (l : list str) : list str := merge_sort str_le l.

(** [Series.min()] of a non-empty series of timestamps. *)
Definition ts_min (d : Z) (ds : list Z) : Z := foldl Z.min d ds.

(** One row of the input frame; [None] is a null ([None]/[NaN]) cell. *)
Record RawRecord `{PyRuntime} : Type := {
  raw_product_id : RawId;
  raw_product_name : option str;
  created_at : option RawTs;
}.

(** One row of the frame once the null names are gone. *)
Record NamedRecord `{PyRuntime} : Type := {
  rec_id : RawId;
  rec_name : str;
  rec_created_at : option RawTs;
}.

(** One row of the master table. *)
Record MasterRow : Type := {
  parent_product_id : str;
  parent_product_name : str;
  child_product_ids : list str;
  child_product_names : list str;
  all_possible_child_names : list str;
  master_created_at : option Z;
}.

(** One row of [parent_groups] after line 134. *)
Record ParentGroup : Type := {
  parent_name : str;
  group_ids : list str;
  group_names : list str;
  group_created_at : option Z;
}.

Section engine.
Context {rt : PyRuntime}.

(** The authoring structure (lines 8-75), a [dict] from parent name to
    the list of its aliases, in iteration order. *)
Variable PARENT_CHILD_MAPPING : list (str * list str).

(** Lines 78-85. *)
Definition _create_child_to_parent_map (mapping : list (str * list str))
    : gmap (list N) (list N) :=
  foldl (λ child_map '(parent, children),
           foldl (λ child_map child, <[clean_name child := parent]> child_map)
                 child_map children)
        ∅ mapping.

(** Line 87. *)
Definition CHILD_TO_PARENT_MAP : gmap (list N) (list N) :=
  _create_child_to_parent_map PARENT_CHILD_MAPPING.

(** Line 106: [dropna(subset=['raw_product_name'])]. *)
Definition dropna_name (df : list RawRecord) : list NamedRecord :=
  omap (λ r, (λ n, Build_NamedRecord _ (raw_product_id r) n (created_at r))
               <$> raw_product_name r) df.

(** Line 109: keep the rows whose stripped name is not ['0']. *)
Definition drop_zero (df : list NamedRecord) : list NamedRecord :=
  filter (λ r, strip (rec_name r) ≠ py "0") df.

(** Line 115. *)
Definition cleaned_name (r : NamedRecord) : str := clean_name (rec_name r).

(** Line 116: [Series.map(dict)], [None] where the key is absent. *)
Definition parent_name_from_map (r : NamedRecord) : option str :=
  CHILD_TO_PARENT_MAP !! cleaned_name r.

(** Line 120: [groupby(cleaned_name)['raw_product_name'].transform('first')],
    the name of the first row of the frame with the same cleaned name. *)
Definition parent_name_for_unmapped (df : list NamedRecord) (r : NamedRecord)
    : option str :=
  rec_name <$> head (filter (λ r', cleaned_name r' = cleaned_name r) df).

(** Line 121: [fillna]. *)
Definition resolved_parent (df : list NamedRecord) (r : NamedRecord)
    : option str :=
  match parent_name_from_map r with
  | Some p => Some p
  | None => parent_name_for_unmapped df r
  end.

(** Line 125, on the row [r] of the frame [df]. *)
Definition parsed_created_at (df : list NamedRecord) (r : NamedRecord)
    : option Z :=
  rec_created_at r ≫= to_datetime (rec_created_at <$> df).

(** Lines 128-132, the three aggregations of one group. *)
Definition agg_ids (g : list NamedRecord) : list str :=
  sorted (unique ((λ r, astype_str (rec_id r)) <$> g)).

Definition agg_names (g : list NamedRecord) : list str :=
  sorted (unique (rec_name <$> g)).

Definition agg_created_at (dates : list (option Z)) : option Z :=
  match omap id dates with
  | [] => None
  | d :: ds => Some (ts_min d ds)
  end.

(** Line 134: [groupby('parent_name')] takes the distinct non-null keys in
    sorted order; each group holds the rows of the key, in frame order. *)
Definition group_keys (df : list NamedRecord) : list str :=
  sorted (unique (omap (resolved_parent df) df)).

Definition group_of (df : list NamedRecord) (key : str) : list NamedRecord :=
  filter (λ r, resolved_parent df r = Some key) df.

Definition parent_groups (df : list NamedRecord) : list ParentGroup :=
  (λ key,
     let g := group_of df key in
     {| parent_name := key;
        group_ids := agg_ids g;
        group_names := agg_names g;
        group_created_at := agg_created_at (parsed_created_at df <$> g) |})
  <$> group_keys df.

(** Lines 145-146: the curated list of the parent, or the parent alone. *)
Definition possible_child_names (parent : str) : list str :=
  default [parent]
    (snd <$> head (filter (λ e, e.1 = parent) PARENT_CHILD_MAPPING)).

(** Lines 142-157: one finished row; [_generate_stable_uuid] can raise. *)
Definition finish_row (g : ParentGroup) : result MasterRow :=
  result_map
    (λ pid,
       {| parent_product_id := pid;
          parent_product_name := parent_name g;
          child_product_ids := group_ids g;
          child_product_names := group_names g;
          all_possible_child_names := possible_child_names (parent_name g);
          master_created_at := group_created_at g |})
    (_generate_stable_uuid (parent_name g)).

(** Line 160: [sort_values('parent_name')]. *)
Definition row_le (a b : MasterRow) : Prop :=
  str_le (parent_product_name a) (parent_product_name b).

#[global] Instance row_le_dec : RelDecision row_le :=
  λ a b, decide (str_le (parent_product_name a) (parent_product_name b)).

Definition sort_values (rows : list MasterRow) : list MasterRow :=
  merge_sort row_le rows.

(** The rows of the frame that reach the grouping (after line 109). *)
Definition surviving (df : list RawRecord) : list NamedRecord :=
  drop_zero (dropna_name df).

(** Lines 95-164. *)
Definition create_parent_child_master_table (all_product_data_df : list RawRecord)
    : result (list MasterRow) :=
  match all_product_data_df with
  | [] => Ok []
  | _ =>
      let df := surviving all_product_data_df in
      result_map sort_values (result_mapM finish_row (parent_groups df))
  end.
(** The row that [finish_row] builds from a group. *)
Definition row_of_group (g : ParentGroup) (row : MasterRow) : Prop :=
  _generate_stable_uuid (parent_name g) = Ok (parent_product_id row)
  ∧ parent_product_name row = parent_name g
  ∧ child_product_ids row = group_ids g
  ∧ child_product_names row = group_names g
  ∧ all_possible_child_names row = possible_child_names (parent_name g)
  ∧ master_created_at row = group_created_at g.

(** What the row of the master table for the parent [key] holds. *)
Definition row_of_key (sdf : list NamedRecord) (key : str) (row : MasterRow)
    : Prop :=
  parent_product_name row = key
  ∧ child_product_ids row = agg_ids (group_of sdf key)
  ∧ child_product_names row = agg_names (group_of sdf key)
  ∧ master_created_at row
    = agg_created_at (parsed_created_at sdf <$> group_of sdf key)
  ∧ _generate_stable_uuid key = Ok (parent_product_id row).
End engine.

(** A runtime to run the engine on concrete inputs: ASCII case mapping, ids
    that are already strings, and timestamps written as decimal digits
    (anything else does not parse). *)
Fixpoint digits_value (acc : Z) (s : str) : option Z :=
  match s with
  | [] => Some acc
  | c :: s' =>
      if (0x30 <=? c) && (c <=? 0x39)
      then digits_value (10 * acc + Z.of_N (c - 0x30)) s'
      else None
  end.

Definition digits_to_datetime (col : list (option str)) (x : str) : option Z :=
  match x with
  | [] => None
  | _ => digits_value 0 x
  end.

#[global] Instance ascii_runtime : PyRuntime := {|
  lower := ascii_lower;
  RawId := str;
  astype_str := id;
  RawTs := str;
  to_datetime := digits_to_datetime;
|}.

(** The pairs (parent, alias) of the authoring structure, in the order in
    which the two loops of [_create_child_to_parent_map] visit them. *)
Definition alias_pairs (mapping : list (str * list str)) : list (str * str) :=
  mapping ≫= λ '(parent, children), (λ child, (parent, child)) <$> children.

(** Every id listed in some row is an id of [ids], and conversely. *)
Definition ids_covered (ids : list str) (T : list MasterRow) : Prop :=
  ∀ x, (∃ row, row ∈ T ∧ x ∈ child_product_ids row) ↔ x ∈ ids.

(** No id is listed in two rows. *)
Definition ids_disjoint (T : list MasterRow) : Prop :=
  ∀ row1 row2 x, row1 ∈ T → row2 ∈ T →
    x ∈ child_product_ids row1 → x ∈ child_product_ids row2 → row1 = row2.

(** A byte. *)
Definition is_byte (b : N) : Prop := b < 256.

(** The namespace [6ba7b810-9dad-11d1-80b4-00c04fd430c8], as octets. *)
Definition NAMESPACE_octets : list N :=
  [0x6b; 0xa7; 0xb8; 0x10; 0x9d; 0xad; 0x11; 0xd1;
   0x80; 0xb4; 0x00; 0xc0; 0x4f; 0xd4; 0x30; 0xc8].

(** Concrete inputs on which the statements below are run. *)
Definition demo_record (i n : String.string) (c : option String.string)
    : RawRecord :=
  {| raw_product_id := py i; raw_product_name := Some (py n);
     created_at := py <$> c |}.
Arguments demo_record (i n)%_string c.

Definition demo_mapping : list (str * list str) :=
  [(py "Tomato A", [py "Tomato A"; py "Tomatoes Grade A"; py "Tomato"])].

Definition demo_df : list RawRecord :=
  [ demo_record "A1" "Tomato A" (Some "20240101"%string);
    demo_record "A2" " tomato a " (Some "20240103"%string);
    demo_record "A3" "Tomatoes Grade A" None;
    {| raw_product_id := py "N1"; raw_product_name := None;
       created_at := Some (py "20230101") |};
    demo_record "Z1" "Zug Soap" (Some "n/a"%string);
    demo_record "Z2" "zug  soap " (Some "20230505"%string);
    demo_record "X0" " 0 " (Some "20220101"%string) ].

Definition demo_table : list MasterRow :=
  Eval vm_compute in
    match create_parent_child_master_table demo_mapping demo_df with
    | Ok T => T
    | Raise _ => []
    end.

(** Two sources that reuse the id [1] for different products. *)
Definition shared_id_df : list RawRecord :=
  [ demo_record "1" "Potato" None; demo_record "1" "Carrot" None ].

Definition shared_id_table : list MasterRow :=
  Eval vm_compute in
    match create_parent_child_master_table [] shared_id_df with
    | Ok T => T
    | Raise _ => []
    end.

(** A record whose name is the empty string. *)
Definition empty_name_df : list RawRecord :=
  [ demo_record "A1" "" None ].

(** ** Further definitions used to state properties *)

(** A Unicode scalar value: a code point that is not a surrogate. *)
Definition is_scalar (c : N) : Prop :=
  c < 0xD800 ∨ (0xDFFF < c ∧ c < 0x110000).

#[global] Instance is_scalar_dec (c : N) : Decision (is_scalar c).
Proof. unfold is_scalar. apply _. Defined.

(** The columns of a row other than [created_at]. *)
Definition same_identity (a b : MasterRow) : Prop :=
  parent_product_id a = parent_product_id b
  ∧ parent_product_name a = parent_product_name b
  ∧ child_product_ids a = child_product_ids b
  ∧ child_product_names a = child_product_names b
  ∧ all_possible_child_names a = all_possible_child_names b.

(** ** The dynamic mapping scripts *)

(** [scripts/dynamic_mapping/add_new_product.py], lines 42-47. *)
Definition generate_parent_id (parent_name : list N) : result (list N) :=
  let namespace :=
    default 0 (Uuid.UUID_of_hex (py "6ba7b810-9dad-11d1-80b4-00c04fd430c8")) in
  result_map Uuid.UUID_str (Uuid.uuid5 namespace parent_name).

(** [scripts/dynamic_mapping/validate_mapping.py], lines 25-29:
    [re.match(r'^[0-9a-f]{8}-[0-9a-f]{4}-[0-9a-f]{4}-[0-9a-f]{4}-[0-9a-f]{12}$',
    uuid_string, re.IGNORECASE)]. *)

(** The class [[0-9a-f]] under [re.IGNORECASE]. *)
Definition is_hex_ci (c : N) : bool :=
  ((0x30 <=? c) && (c <=? 0x39)) || ((0x61 <=? c) && (c <=? 0x66))
  || ((0x41 <=? c) && (c <=? 0x46)).

(** [[0-9a-f]{n}] at the start of [s]: what follows the [n] digits. *)
Fixpoint match_hex (n : nat) (s : list N) : option (list N) :=
  match n with
  | O => Some s
  | S n' =>
      match s with
      | c :: s' => if is_hex_ci c then match_hex n' s' else None
      | [] => None
      end
  end.

Definition match_hyphen (s : list N) : option (list N) :=
  match s with
  | c :: s' => if c =? 0x2D then Some s' else None
  | [] => None
  end.

(** [$] without [re.MULTILINE]: the end of the string, or the newline that
    ends it. *)
Definition match_end (s : list N) : bool :=
  match s with
  | [] => true
  | [c] => c =? 0x0A
  | _ => false
  end.

(** The pieces of the pattern between [^] and [$], matched one after the
    other. *)
Definition uuid_pattern : list (list N → option (list N)) :=
  [ match_hex 8; match_hyphen; match_hex 4; match_hyphen; match_hex 4;
    match_hyphen; match_hex 4; match_hyphen; match_hex 12 ].

Definition match_pieces (pieces : list (list N → option (list N)))
    (s : list N) : option (list N) :=
  foldl (λ st piece, match st with Some rest => piece rest | None => None end)
        (Some s) pieces.

Definition validate_uuid (uuid_string : list N) : bool :=
  match match_pieces uuid_pattern uuid_string with
  | Some rest => match_end rest
  | None => false
  end.

(** A lower-case hexadecimal digit. *)
Definition is_lower_hex (c : N) : Prop :=
  (0x30 ≤ c ∧ c ≤ 0x39) ∨ (0x61 ≤ c ∧ c ≤ 0x66).

(** ** [main.py] and [pipeline/db_writer.py] *)

(** One row of a frame returned by a loader: any cell can be null. *)
Record SourceRecord `{PyRuntime} : Type := {
  src_product_id : option RawId;
  src_product_name : option (list N);
  src_created_at : option RawTs;
}.

(** [main.py], line 39:
    [dropna(subset=['raw_product_id', 'raw_product_name'], inplace=True)]. *)
Definition dropna_id_name `{PyRuntime} (df : list SourceRecord)
    : list RawRecord :=
  omap (λ r,
          match src_product_id r, src_product_name r with
          | Some i, Some n =>
              Some {| raw_product_id := i; raw_product_name := Some n;
                      created_at := src_created_at r |}
          | _, _ => None
          end) df.

(** How a run of the pipeline ends: with the hub table in some state ([None]
    when the table does not exist), or with the exception re-raised by
    [main.py], line 68. *)
Inductive pipeline_outcome : Type :=
  | PipelineFinished (hub : option (list MasterRow))
  | PipelineFailed.

Section pipeline.
Context {rt : PyRuntime}.
Variable PARENT_CHILD_MAPPING : list (list N * list (list N)).

(** [df.to_sql(name, con, schema, if_exists='replace', index=False)] on the
    hub table: the state it leaves, or [None] when the database raises. *)
Variable to_sql :
  list MasterRow → option (list MasterRow) → option (option (list MasterRow)).

(** [pipeline/db_writer.py], lines 6-38, called with [if_exists='replace']. *)
Definition write_to_db (df : list MasterRow) (hub : option (list MasterRow))
    : option (option (list MasterRow)) :=
  match df with
  | [] => Some hub
  | _ => to_sql df hub
  end.

(** [main.py], lines 10-68, from the frames the two loaders returned. *)
Definition run_unified_pipeline (clickhouse_df supabase_df : list SourceRecord)
    (hub : option (list MasterRow)) : pipeline_outcome :=
  let combined_raw_data_df := dropna_id_name (clickhouse_df ++ supabase_df) in
  match create_parent_child_master_table PARENT_CHILD_MAPPING
          combined_raw_data_df with
  | Raise _ => PipelineFailed
  | Ok parent_child_master_df =>
      match write_to_db parent_child_master_df hub with
      | Some hub' => PipelineFinished hub'
      | None => PipelineFailed
      end
  end.
End pipeline.

(** A second frame, from another source and without alias table, that also
    holds a product named [Tomato A]. *)
Definition farm_df : list RawRecord :=
  [ demo_record "F9" "Tomato A" None; demo_record "F3" "Teff" None ].

Definition farm_table : list MasterRow :=
  Eval vm_compute in
    match create_parent_child_master_table [] farm_df with
    | Ok T => T
    | Raise _ => []
    end.

(** A frame whose names are all aliases of the table, in two orders. *)
Definition mapped_df : list RawRecord :=
  [ demo_record "A1" "Tomato A" (Some "20240101"%string);
    demo_record "A2" " tomato a " (Some "20240103"%string);
    demo_record "A3" "Tomatoes Grade A" None ].

Definition mapped_table : list MasterRow :=
  Eval vm_compute in
    match create_parent_child_master_table demo_mapping mapped_df with
    | Ok T => T
    | Raise _ => []
    end.

Definition mapped_table_reversed : list MasterRow :=
  Eval vm_compute in
    match create_parent_child_master_table demo_mapping (reverse mapped_df) with
    | Ok T => T
    | Raise _ => []
    end.

(** Source rows that lack an id or a name, and a database that accepts
    every write. *)
Definition incomplete_source : list SourceRecord :=
  [ {| src_product_id := None; src_product_name := Some (py "Potato");
       src_created_at := None |};
    {| src_product_id := Some (py "7"); src_product_name := None;
       src_created_at := Some (py "20240101") |} ].

Definition accepting_to_sql (df : list MasterRow)
    (hub : option (list MasterRow)) : option (option (list MasterRow)) :=
  Some (Some df).

(** ** Whitespace normal forms *)

Lemma single_spaced_sub_ws b s : single_spaced b (sub_ws b s) = true.
Proof.
  revert b. induction s as [|c s IH]; intros b; simpl; [done|].
  destruct (is_space c) eqn:Hc.
  - destruct b; simpl; [apply IH|].
    change (is_space SPACE) with true. simpl. apply IH.
  - simpl. rewrite Hc. apply IH.
Qed.

Lemma sub_ws_fixed b t : single_spaced b t = true → sub_ws b t = t.
Proof.
  revert b. induction t as [|c t IH]; intros b; simpl; [done|].
  destruct (is_space c) eqn:Hc.
  - intros H. apply andb_prop in H as [H1 H3]. apply andb_prop in H1 as [H1 H2].
    apply N.eqb_eq in H1. destruct b; [done|]. subst c. f_equal. by apply IH.
  - intros H. f_equal. by apply IH.
Qed.

Lemma single_spaced_weaken b t :
  single_spaced b t = true → single_spaced false t = true.
Proof.
  destruct t as [|c t]; simpl; [done|]. destruct (is_space c); [|done].
  intros H. apply andb_prop in H as [H1 H3]. apply andb_prop in H1 as [H1 H2].
  rewrite H1, H3. done.
Qed.

Lemma single_spaced_app_l b t1 t2 :
  single_spaced b (t1 ++ t2) = true → single_spaced b t1 = true.
Proof.
  revert b. induction t1 as [|c t1 IH]; intros b; simpl; [done|].
  destruct (is_space c).
  - intros H. apply andb_prop in H as [H1 H3]. rewrite H1. simpl. by eapply IH.
  - apply IH.
Qed.

Lemma single_spaced_app_r b t1 t2 :
  single_spaced b (t1 ++ t2) = true → ∃ b', single_spaced b' t2 = true.
Proof.
  revert b. induction t1 as [|c t1 IH]; intros b; simpl; [eauto|].
  destruct (is_space c).
  - intros H. apply andb_prop in H as [H1 H3]. by eapply IH.
  - apply IH.
Qed.

Lemma lstrip_suffix s : ∃ p, s = p ++ lstrip s.
Proof.
  induction s as [|c s [p Hp]]; simpl; [by exists []|].
  destruct (is_space c); [|by exists []].
  exists (c :: p). simpl. by f_equal.
Qed.

Lemma rstrip_prefix s : ∃ q, s = rstrip s ++ q.
Proof.
  unfold rstrip. destruct (lstrip_suffix (reverse s)) as [p Hp].
  exists (reverse p). rewrite <- reverse_app, <- Hp. by rewrite reverse_involutive.
Qed.

Lemma lstrip_fixed t : nonspace_end (head t) → lstrip t = t.
Proof. destruct t as [|c t]; simpl; [done|]. by intros ->. Qed.

Lemma head_lstrip s : nonspace_end (head (lstrip s)).
Proof.
  induction s as [|c s IH]; simpl; [done|].
  destruct (is_space c) eqn:Hc; [done|]. by simpl.
Qed.

Lemma rstrip_fixed t : nonspace_end (last t) → rstrip t = t.
Proof.
  intros H. unfold rstrip. rewrite lstrip_fixed.
  - apply reverse_involutive.
  - by rewrite head_reverse.
Qed.

Lemma last_rstrip s : nonspace_end (last (rstrip s)).
Proof. unfold rstrip. rewrite last_reverse. apply head_lstrip. Qed.

Lemma head_rstrip s : nonspace_end (head s) → nonspace_end (head (rstrip s)).
Proof.
  intros H. destruct (rstrip_prefix s) as [q Hq].
  destruct (rstrip s) as [|c r]; [done|].
  rewrite Hq in H. by simpl in *.
Qed.

Lemma ws_normal_strip_sub s : ws_normal (strip (re_sub_ws s)).
Proof.
  split; [|split].
  - unfold strip, re_sub_ws.
    pose proof (single_spaced_sub_ws false s) as H.
    destruct (lstrip_suffix (sub_ws false s)) as [p Hp].
    rewrite Hp in H. apply single_spaced_app_r in H as [b' H].
    apply single_spaced_weaken in H.
    destruct (rstrip_prefix (lstrip (sub_ws false s))) as [q Hq].
    rewrite Hq in H. by apply single_spaced_app_l in H.
  - apply head_rstrip, head_lstrip.
  - apply last_rstrip.
Qed.

Lemma ws_normal_fixed t : ws_normal t → strip (re_sub_ws t) = t.
Proof.
  intros (H1 & H2 & H3). unfold re_sub_ws, strip.
  rewrite (sub_ws_fixed _ _ H1), (lstrip_fixed _ H2). by apply rstrip_fixed.
Qed.

(** Every string starts with a (possibly empty) run of non-whitespace that
    ends at the end of the string or at a whitespace code point. *)
Lemma split_first_word (t : str) :
  ∃ w rest, t = w ++ rest ∧ Forall (λ c, is_space c = false) w
    ∧ (rest = [] ∨ ∃ c t', rest = c :: t' ∧ is_space c = true).
Proof.
  induction t as [|c t (w & rest & -> & Hw & Hr)].
  - exists [], []. eauto.
  - destruct (is_space c) eqn:Hc.
    + exists [], (c :: w ++ rest). split; [done|]. split; [constructor|]. eauto.
    + exists (c :: w), rest. split; [done|]. split; [by constructor|done].
Qed.

Lemma single_spaced_word_app b w r :
  Forall (λ c, is_space c = false) w → w ≠ [] →
  single_spaced b (w ++ r) = single_spaced false r.
Proof.
  intros Hw. revert b. induction Hw as [|c w Hc Hw IH]; intros b Hne; [done|].
  simpl. rewrite Hc. destruct w as [|d w]; [done|]. by apply IH.
Qed.

Lemma single_spaced_head b b' t :
  nonspace_end (head t) → single_spaced b t = single_spaced b' t.
Proof. destruct t as [|c t]; simpl; [done|]. by intros ->. Qed.

Lemma ws_normal_word w : is_word w → ws_normal w.
Proof.
  intros [Hne Hw]. split; [|split].
  - rewrite <- (app_nil_r w). by rewrite single_spaced_word_app.
  - destruct Hw; by simpl.
  - destruct (last w) as [c|] eqn:Hl; [|done]. simpl.
    apply last_Some_elem_of in Hl. by eapply Forall_forall in Hw.
Qed.

Lemma ws_normal_join w u :
  is_word w → ws_normal u → u ≠ [] → ws_normal (w ++ SPACE :: u).
Proof.
  intros [Hne Hw] (Hu1 & Hu2 & Hu3) Hu. split; [|split].
  - rewrite single_spaced_word_app by done.
    change (single_spaced false (SPACE :: u)) with (single_spaced true u).
    by rewrite (single_spaced_head true false).
  - destruct Hw; by simpl.
  - rewrite last_app, last_cons. destruct (last u) eqn:Hl; [done|].
    by apply last_None in Hl.
Qed.

(** A normal string is empty, one word, or a word, one space and a non-empty
    normal string. *)
Lemma ws_normal_split t :
  ws_normal t →
  t = [] ∨ is_word t
  ∨ ∃ w t', t = w ++ SPACE :: t' ∧ is_word w ∧ ws_normal t' ∧ t' ≠ [].
Proof.
  intros (H1 & H2 & H3).
  destruct (split_first_word t) as (w & rest & -> & Hw & Hr).
  destruct w as [|c w].
  - destruct Hr as [->|(c & t' & -> & Hc)]; [by left|].
    simpl in H2. congruence.
  - right. destruct Hr as [->|(d & t' & -> & Hd)].
    + left. rewrite app_nil_r. by split.
    + right. rewrite single_spaced_word_app in H1 by done.
      simpl in H1. rewrite Hd in H1.
      apply andb_prop in H1 as [H1 H4]. apply andb_prop in H1 as [H1 _].
      apply N.eqb_eq in H1. subst d.
      exists (c :: w), t'. split; [done|]. split; [by split|].
      assert (t' ≠ []) as Hne.
      { intros ->. rewrite last_app in H3. simpl in H3. congruence. }
      split; [|done]. split; [|split].
      * by eapply single_spaced_weaken.
      * destruct t' as [|e t']; [done|]. simpl in *.
        destruct (is_space e); [|done]. by rewrite andb_false_r in H4.
      * rewrite last_app, last_cons in H3.
        destruct (last t') eqn:Hl; [done|]. by apply last_None in Hl.
Qed.

(** ** Idempotence of the cleaning expression *)

Section normalization.
Context {rt : PyRuntime}.
(** What the proof uses of [str.lower]: it maps the empty string to
    itself, works on each side of a U+0020 separately, turns a word into
    a word, and leaves its own results unchanged. *)
Hypothesis lower_nil : lower [] = [].
Hypothesis lower_space :
  ∀ a b, lower (a ++ SPACE :: b) = lower a ++ SPACE :: lower b.
Hypothesis lower_word : ∀ w, is_word w → is_word (lower w).
Hypothesis lower_idemp : ∀ s, lower (lower s) = lower s.

Lemma ws_normal_lower_aux n t :
  (length t ≤ n)%nat → ws_normal t →
  ws_normal (lower t) ∧ (t ≠ [] → lower t ≠ []).
Proof using lower_nil lower_space lower_word.
  revert t. induction n as [|n IH]; intros t Hlen Hn.
  - destruct t; [|simpl in Hlen; lia]. by rewrite lower_nil.
  - destruct (ws_normal_split t Hn) as [->|[Hw|(w & t' & -> & Hw & Hn' & Hne)]].
    + by rewrite lower_nil.
    + pose proof (lower_word _ Hw) as Hw'. split.
      * by apply ws_normal_word.
      * intros _. apply Hw'.
    + rewrite lower_space.
      destruct (IH t') as [IH1 IH2]; [|done|].
      { rewrite length_app in Hlen. simpl in Hlen. lia. }
      split.
      * apply ws_normal_join; auto.
      * intros _. by destruct (lower w).
Qed.

Lemma ws_normal_lower t : ws_normal t → ws_normal (lower t).
Proof using lower_nil lower_space lower_word.
  intros H. by eapply ws_normal_lower_aux.
Qed.

(** C10. The cleaning expression [re.sub(r'\s+', ' ', x).strip().lower()]
    is idempotent: cleaning an already cleaned name (an alias-table key
    built on line 83, looked up with the cleaned name of line 115) changes
    nothing. *)
Theorem clean_name_idempotent (s : str) :
  clean_name (clean_name s) = clean_name s.
Proof using lower_nil lower_space lower_word lower_idemp.
  unfold clean_name.
  rewrite ws_normal_fixed.
  - apply lower_idemp.
  - apply ws_normal_lower, ws_normal_strip_sub.
Qed.
End normalization.

(** ** The order on strings *)

Lemma str_compare_refl a : str_compare a a = Eq.
Proof. induction a as [|x a IH]; simpl; [done|]. by rewrite N.compare_refl. Qed.

Lemma str_compare_eq a b : str_compare a b = Eq → a = b.
Proof.
  revert b. induction a as [|x a IH]; intros [|y b]; simpl; try done.
  destruct (N.compare_spec x y) as [->| |]; try done.
  intros Hc. f_equal. by apply IH.
Qed.

Lemma str_compare_antisym a b : str_compare b a = CompOpp (str_compare a b).
Proof.
  revert b. induction a as [|x a IH]; intros [|y b]; simpl; try done.
  rewrite (N.compare_antisym x y).
  destruct (x ?= y)%N; simpl; [apply IH|done|done].
Qed.

Lemma str_lt_trans a b c : str_lt a b → str_lt b c → str_lt a c.
Proof.
  unfold str_lt. revert b c.
  induction a as [|x a IH]; intros [|y b] [|z c]; simpl; try done.
  destruct (N.compare_spec x y) as [->|Hxy|Hxy]; try done.
  - destruct (N.compare_spec y z) as [->|Hyz|Hyz]; try done. apply IH.
  - intros _. destruct (N.compare_spec y z) as [->|Hyz|Hyz]; try done.
    + intros _. destruct (N.compare_spec x z); [lia|done|lia].
    + intros _. destruct (N.compare_spec x z); [lia|done|lia].
Qed.

#[global] Instance str_le_refl : Reflexive str_le.
Proof. intros a. unfold str_le. by rewrite str_compare_refl. Qed.

#[global] Instance str_le_trans : Transitive str_le.
Proof.
  intros a b c Hab Hbc. unfold str_le in *.
  destruct (str_compare a b) eqn:E1; [|clear Hab|done].
  - apply str_compare_eq in E1 as ->. done.
  - destruct (str_compare b c) eqn:E2; [| |done].
    + apply str_compare_eq in E2 as ->. by rewrite E1.
    + by rewrite (str_lt_trans a b c).
Qed.

#[global] Instance str_le_total : Total str_le.
Proof.
  intros a b. unfold str_le. rewrite (str_compare_antisym a b).
  destruct (str_compare a b); simpl; auto.
Qed.

Lemma str_le_neq_lt a b : str_le a b → a ≠ b → str_lt a b.
Proof.
  unfold str_le, str_lt. intros Hle Hne.
  destruct (str_compare a b) eqn:E; [|done|done].
  by apply str_compare_eq in E.
Qed.

Lemma str_lt_irrefl a : ¬ str_lt a a.
Proof. unfold str_lt. by rewrite str_compare_refl. Qed.

Lemma StronglySorted_strict (l : list (list N)) :
  StronglySorted str_le l → NoDup l → StronglySorted str_lt l.
Proof.
  induction 1 as [|x l Hs IH Hx]; intros Hnd; [constructor|].
  apply NoDup_cons in Hnd as [Hnin Hnd]. constructor; [by apply IH|].
  apply Forall_forall. intros y Hy. apply str_le_neq_lt.
  - by eapply Forall_forall in Hx.
  - intros ->. done.
Qed.

Lemma StronglySorted_str_lt_NoDup (l : list (list N)) :
  StronglySorted str_lt l → NoDup l.
Proof.
  induction 1 as [|x l Hs IH Hx]; [constructor|].
  apply NoDup_cons. split; [|done].
  intros Hin. eapply Forall_forall in Hx; [|done]. by apply str_lt_irrefl in Hx.
Qed.

(** ** [sorted] and [unique] *)

Lemma sorted_Permutation l : sorted l ≡ₚ l.
Proof. apply merge_sort_Permutation. Qed.

Lemma elem_of_sorted x l : x ∈ sorted l ↔ x ∈ l.
Proof. by rewrite sorted_Permutation. Qed.

Lemma sorted_strict l : NoDup l → StronglySorted str_lt (sorted l).
Proof.
  intros Hnd. apply StronglySorted_strict.
  - apply StronglySorted_merge_sort; apply _.
  - by rewrite sorted_Permutation.
Qed.

Section unique.
Context `{EqDecision A}.
Implicit Types l seen : list A.

Lemma elem_of_unique_from seen l x :
  x ∈ unique_from seen l ↔ x ∈ l ∧ x ∉ seen.
Proof.
  revert seen. induction l as [|y l IH]; intros seen; simpl.
  - split; [by intros ?%elem_of_nil|by intros [?%elem_of_nil _]].
  - case_decide as Hy.
    + rewrite IH, elem_of_cons. split; [tauto|].
      intros [[->|Hx] Hn]; [done|by split].
    + rewrite !elem_of_cons, IH, not_elem_of_cons.
      destruct (decide (x = y)) as [->|Hxy]; tauto.
Qed.

Lemma NoDup_unique_from seen l : NoDup (unique_from seen l).
Proof.
  revert seen. induction l as [|y l IH]; intros seen; simpl; [constructor|].
  case_decide; [apply IH|]. apply NoDup_cons. split; [|apply IH].
  rewrite elem_of_unique_from, not_elem_of_cons. tauto.
Qed.

Lemma elem_of_unique l x : x ∈ unique l ↔ x ∈ l.
Proof.
  unfold unique. rewrite elem_of_unique_from. split; [by intros [? _]|].
  intros Hx. split; [done|]. apply not_elem_of_nil.
Qed.

Lemma NoDup_unique l : NoDup (unique l).
Proof. apply NoDup_unique_from. Qed.
End unique.

Lemma sorted_unique_strict l : StronglySorted str_lt (sorted (unique l)).
Proof. apply sorted_strict, NoDup_unique. Qed.

Lemma elem_of_sorted_unique x l : x ∈ sorted (unique l) ↔ x ∈ l.
Proof. by rewrite elem_of_sorted, elem_of_unique. Qed.

(** ** Calls that can raise *)

Lemma result_mapM_Ok {A B} (f : A → result B) l l' :
  result_mapM f l = Ok l' ↔ Forall2 (λ x y, f x = Ok y) l l'.
Proof.
  revert l'. induction l as [|x l IH]; intros l'; simpl.
  - split; [intros [= <-]; constructor|by inversion 1].
  - destruct (f x) as [y|e] eqn:Hx; simpl.
    + destruct (result_mapM f l) as [ys|e] eqn:Hl; simpl.
      * split.
        -- intros [= <-]. constructor; [done|]. by apply IH.
        -- inversion 1 as [|? y' ? ys' Hy Hys]; subst.
           apply IH in Hys. congruence.
      * split; [done|]. inversion 1 as [|? y' ? ys' Hy Hys]; subst.
        apply IH in Hys. done.
    + split; [done|]. inversion 1; congruence.
Qed.

(** ** The identifier generator *)

Import Uuid.

Lemma byte_bits_high b n : is_byte b → 8 ≤ n → N.testbit b n = false.
Proof.
  intros Hb Hn. rewrite <- (N.mod_small b (2 ^ 8)) by done.
  by apply N.mod_pow2_bits_high.
Qed.

Lemma land_byte n : is_byte (N.land n 0xFF).
Proof.
  change 0xFF with (N.ones 8). rewrite N.land_ones.
  apply N.mod_upper_bound. done.
Qed.

Lemma length_int_to_bytes len n : length (int_to_bytes len n) = len.
Proof.
  revert n. induction len as [|len IH]; intros n; simpl; [done|].
  rewrite length_app, IH. simpl. lia.
Qed.

Lemma Forall_int_to_bytes len n : Forall is_byte (int_to_bytes len n).
Proof.
  revert n. induction len as [|len IH]; intros n; simpl; [constructor|].
  apply Forall_app. split; [apply IH|]. constructor; [apply land_byte|constructor].
Qed.

Lemma length_sha1 msg : length (sha1 msg) = 20%nat.
Proof. unfold sha1. by rewrite !length_app, !length_int_to_bytes. Qed.

Lemma Forall_sha1 msg : Forall is_byte (sha1 msg).
Proof. unfold sha1. rewrite !Forall_app. auto 10 using Forall_int_to_bytes. Qed.

Lemma int_from_bytes_snoc bs b :
  int_from_bytes (bs ++ [b]) = N.lor (N.shiftl (int_from_bytes bs) 8) b.
Proof. unfold int_from_bytes. by rewrite foldl_snoc. Qed.

Ltac bitwise n :=
  apply N.bits_inj; intros n;
  rewrite ?N.lor_spec, ?N.ldiff_spec, ?N.land_spec, ?N.lor_spec.

Lemma set_low_byte X b m v :
  is_byte m → is_byte v →
  N.lor (N.ldiff (N.lor (N.shiftl X 8) b) m) v
  = N.lor (N.shiftl X 8) (N.lor (N.ldiff b m) v).
Proof.
  intros Hm Hv. bitwise n.
  destruct (N.lt_ge_cases n 8) as [Hn|Hn].
  - rewrite N.shiftl_spec_low by done. simpl. done.
  - rewrite (byte_bits_high m), (byte_bits_high v) by done.
    by rewrite !orb_false_r, !andb_true_r.
Qed.

Lemma set_high_byte X b M V :
  is_byte b →
  N.lor (N.ldiff (N.lor (N.shiftl X 8) b) (N.shiftl M 8)) (N.shiftl V 8)
  = N.lor (N.shiftl (N.lor (N.ldiff X M) V) 8) b.
Proof.
  intros Hb. bitwise n.
  destruct (N.lt_ge_cases n 8) as [Hn|Hn].
  - rewrite !N.shiftl_spec_low by done. simpl. by rewrite andb_true_r, orb_false_r.
  - rewrite !N.shiftl_spec_high' by done.
    rewrite N.lor_spec, N.ldiff_spec, (byte_bits_high b) by done.
    simpl. by rewrite !orb_false_r.
Qed.

(** Clearing the bits of [m] and setting those of [v] in the byte that is
    [k] bytes above the least significant one. *)
Lemma set_byte_from_right (m v : N) (bs : list N) (k : nat) :
  is_byte m → is_byte v → Forall is_byte bs → (k < length bs)%nat →
  N.lor (N.ldiff (int_from_bytes bs) (N.shiftl m (8 * N.of_nat k)))
        (N.shiftl v (8 * N.of_nat k))
  = int_from_bytes (alter (λ o, N.lor (N.ldiff o m) v) (length bs - 1 - k)%nat bs).
Proof.
  intros Hm Hv. revert k.
  induction bs as [|b bs IH] using rev_ind; intros k Hbs Hk; [simpl in Hk; lia|].
  apply Forall_app in Hbs as [Hbs Hb]. apply Forall_inv in Hb.
  rewrite length_app in *. simpl in *.
  destruct k as [|k].
  - replace (length bs + 1 - 1 - 0)%nat with (length bs + 0)%nat by lia.
    rewrite alter_app_r. simpl.
    rewrite !int_from_bytes_snoc, !N.shiftl_0_r. by apply set_low_byte.
  - rewrite alter_app_l by lia.
    rewrite !int_from_bytes_snoc.
    replace (8 * N.of_nat (S k)) with (8 * N.of_nat k + 8) by lia.
    rewrite <- !N.shiftl_shiftl, set_high_byte by done.
    rewrite IH by (done || lia).
    do 4 f_equal. lia.
Qed.

Lemma shiftr8_lor_byte X b :
  is_byte b → N.shiftr (N.lor (N.shiftl X 8) b) 8 = X.
Proof.
  intros Hb. bitwise n.
  rewrite N.shiftr_spec', N.lor_spec, N.shiftl_spec_high' by lia.
  rewrite (byte_bits_high b) by (done || lia).
  rewrite orb_false_r. f_equal. lia.
Qed.

Lemma high_nibble_lor_byte X b :
  is_byte b →
  N.land (N.shiftr (N.lor (N.shiftl X 8) b) 4) (N.ones 4) = N.shiftr b 4.
Proof.
  intros Hb. bitwise n. rewrite !N.shiftr_spec', N.lor_spec.
  destruct (N.lt_ge_cases n 4) as [Hn|Hn].
  - rewrite N.shiftl_spec_low by lia.
    rewrite N.ones_spec_low by done. by rewrite andb_true_r.
  - rewrite N.ones_spec_high by done.
    rewrite (byte_bits_high b) by (done || lia). by rewrite andb_false_r.
Qed.

Lemma low_nibble_lor_byte X b :
  N.land (N.lor (N.shiftl X 8) b) (N.ones 4) = N.land b (N.ones 4).
Proof.
  bitwise n. destruct (N.lt_ge_cases n 4) as [Hn|Hn].
  - by rewrite N.shiftl_spec_low by lia.
  - rewrite N.ones_spec_high by done. by rewrite !andb_false_r.
Qed.

Lemma hex_pad_snoc_byte (w : nat) X b :
  is_byte b →
  hex_pad (S (S w)) (N.lor (N.shiftl X 8) b) = hex_pad w X ++ hex_octet b.
Proof.
  intros Hb. simpl. rewrite <- app_assoc. simpl.
  rewrite N.shiftr_shiftr. change (4 + 4) with 8.
  change 15 with (N.ones 4).
  rewrite shiftr8_lor_byte, high_nibble_lor_byte, low_nibble_lor_byte by done.
  done.
Qed.

Lemma hex_pad_bytes bs :
  Forall is_byte bs →
  hex_pad (2 * length bs) (int_from_bytes bs) = bs ≫= hex_octet.
Proof.
  induction bs as [|b bs IH] using rev_ind; intros Hbs; [done|].
  apply Forall_app in Hbs as [Hbs Hb]. apply Forall_inv in Hb.
  rewrite length_app, bind_app, int_from_bytes_snoc.
  replace (2 * (length bs + length [b]))%nat with (S (S (2 * length bs)))
    by (simpl; lia).
  rewrite hex_pad_snoc_byte by done. rewrite IH by done.
  done.
Qed.

Lemma is_byte_bits x : (∀ n, 8 ≤ n → N.testbit x n = false) → is_byte x.
Proof.
  intros H. assert (x = x mod 2 ^ 8) as ->.
  { apply N.bits_inj. intros n. destruct (N.lt_ge_cases n 8).
    - by rewrite N.mod_pow2_bits_low.
    - rewrite N.mod_pow2_bits_high by done. by apply H. }
  by apply N.mod_upper_bound.
Qed.

Lemma set_byte_is_byte m v o : is_byte m → is_byte v → is_byte o →
  is_byte (N.lor (N.ldiff o m) v).
Proof.
  intros Hm Hv Ho. apply is_byte_bits. intros n Hn.
  rewrite N.lor_spec, N.ldiff_spec.
  by rewrite (byte_bits_high o), (byte_bits_high v).
Qed.

Lemma ldiff_byte_land o m : is_byte o → is_byte m →
  N.ldiff o m = N.land o (N.lxor m 0xFF).
Proof.
  intros Ho Hm. bitwise n. rewrite N.lxor_spec.
  destruct (N.lt_ge_cases n 8) as [Hn|Hn].
  - change 0xFF with (N.ones 8). rewrite N.ones_spec_low by done.
    by rewrite xorb_true_r.
  - rewrite (byte_bits_high o) by done. done.
Qed.

Lemma UUID_of_bytes_octets bs version :
  length bs = 16%nat → Forall is_byte bs → version < 16 →
  UUID_of_bytes bs version
  = int_from_bytes
      (alter (λ o, N.lor (N.land o 0x0F) (N.shiftl version 4)) 6%nat
         (alter (λ o, N.lor (N.land o 0x3F) 0x80) 8%nat bs)).
Proof.
  intros Hlen Hbs Hv. unfold UUID_of_bytes.
  assert (is_byte (N.shiftl version 4)) as Hv'.
  { unfold is_byte. rewrite N.shiftl_mul_pow2. change (2 ^ 4) with 16. lia. }
  change (N.shiftl 0xc000 48) with (N.shiftl 0xc0 (8 * N.of_nat 7)).
  change (N.shiftl 0x8000 48) with (N.shiftl 0x80 (8 * N.of_nat 7)).
  change (N.shiftl 0xf000 64) with (N.shiftl 0xf0 (8 * N.of_nat 9)).
  replace (N.shiftl version 76) with (N.shiftl (N.shiftl version 4) (8 * N.of_nat 9))
    by (by rewrite N.shiftl_shiftl).
  rewrite set_byte_from_right by (done || lia).
  rewrite set_byte_from_right; [|done|done| |].
  - rewrite length_alter, Hlen. simpl.
    f_equal. 
    apply list_eq. intros i. rewrite !list_lookup_alter.
    repeat case_decide; subst; try done.
    + destruct (bs !! 6%nat) as [o|] eqn:Ho; [|done]. simpl. f_equal.
      assert (is_byte o) as Hob by (eapply Forall_lookup_1; eauto).
      rewrite ldiff_byte_land by done. done.
    + destruct (bs !! 8%nat) as [o|] eqn:Ho; [|done]. simpl. f_equal.
      assert (is_byte o) as Hob by (eapply Forall_lookup_1; eauto).
      rewrite ldiff_byte_land by done. done.
  - apply Forall_alter; [done|]. intros o Ho. by apply set_byte_is_byte.
  - rewrite length_alter. lia.
Qed.

Lemma utf8_cp_scalar c :
  c < 0xD800 ∨ (0xDFFF < c ∧ c < 0x110000) → is_Some (utf8_cp c).
Proof.
  intros Hc. unfold utf8_cp.
  repeat (case_match; try done).
  - apply andb_prop in H2 as [?%N.leb_le ?%N.leb_le]. lia.
  - apply N.ltb_ge in H2. lia.
Qed.

Lemma utf8_encode_scalar name :
  Forall (λ c, c < 0xD800 ∨ (0xDFFF < c ∧ c < 0x110000)) name →
  is_Some (utf8_encode name).
Proof.
  induction 1 as [|c name Hc _ IH]; simpl; [done|].
  destruct (utf8_cp_scalar c Hc) as [b ->]. by destruct IH as [bs ->].
Qed.

Lemma UUID_str_of_bytes (d : list N) :
  length d = 20%nat → Forall is_byte d →
  UUID_str (UUID_of_bytes (take 16 d) 5)
  = rfc_uuid_text
      (alter (λ o, N.lor (N.land o 0x3F) 0x80) 8%nat
         (alter (λ o, N.lor (N.land o 0x0F) 0x50) 6%nat (take 16 d))).
Proof.
  intros Hd Hb.
  set (h := take 16 d).
  assert (length h = 16%nat) as Hlen.
  { unfold h. rewrite length_take, Hd. done. }
  assert (Forall is_byte h) as Hh by by apply Forall_take.
  clearbody h. clear d Hd Hb.
  rewrite UUID_of_bytes_octets by done.
  unfold UUID_str, rfc_uuid_text. change (N.shiftl 5 4) with 0x50.
  set (h' := alter _ 6%nat _).
  assert (alter (λ o, N.lor (N.land o 63) 128) 8%nat
            (alter (λ o, N.lor (N.land o 15) 80) 6%nat h) = h') as ->.
  { unfold h'. apply list_eq. intros i. rewrite !list_lookup_alter.
    repeat case_decide; subst; done. }
  rewrite <- (hex_pad_bytes h').
  - unfold h'. by rewrite !length_alter, Hlen.
  - unfold h'. apply Forall_alter; [apply Forall_alter; [done|]|].
    + intros o _ Ho. change 63 with (N.lxor 0xc0 0xFF).
      rewrite <- (ldiff_byte_land o 0xc0 Ho eq_refl).
      by apply set_byte_is_byte.
    + intros o _ Ho. change 15 with (N.lxor 0xf0 0xFF).
      rewrite <- (ldiff_byte_land o 0xf0 Ho eq_refl).
      by apply set_byte_is_byte.
Qed.

Lemma NAMESPACE_UUID_bytes : UUID_bytes NAMESPACE_UUID = NAMESPACE_octets.
Proof. vm_compute. reflexivity. Qed.

(** C1. [_generate_stable_uuid] returns the text of the version-5 UUID of
    its argument under the namespace 6ba7b810-9dad-11d1-80b4-00c04fd430c8:
    the first sixteen octets of SHA-1(namespace octets ++ UTF-8 name) with
    the version and variant bits of RFC 4122 set, in hexadecimal 8-4-4-4-12
    (and it raises exactly when the name cannot be encoded).  The function
    takes the name alone, neither the runtime, the alias table nor the frame:
    equal names give equal identifiers wherever it is called. *)
Theorem generate_stable_uuid_is_uuid5 (name : list N) :
  match utf8_encode name with
  | Some octets =>
      _generate_stable_uuid name
      = Ok (rfc_uuid_text (rfc_uuid5_octets NAMESPACE_octets octets))
  | None => _generate_stable_uuid name = Raise UnicodeEncodeError
  end.
Proof.
  unfold _generate_stable_uuid, uuid5, rfc_uuid5_octets.
  rewrite NAMESPACE_UUID_bytes.
  destruct (utf8_encode name) as [octets|]; [|reflexivity].
  unfold result_map. f_equal.
  apply UUID_str_of_bytes; [apply length_sha1|apply Forall_sha1].
Qed.

(** ** The master table *)

Lemma ts_min_le d ds : (ts_min d ds ≤ d)%Z ∧ Forall (λ x, (ts_min d ds ≤ x)%Z) ds.
Proof.
  unfold ts_min. revert d. induction ds as [|x ds IH]; intros d; simpl.
  - split; [lia|constructor].
  - destruct (IH (Z.min d x)) as [H1 H2]. split; [lia|].
    constructor; [lia|done].
Qed.

Lemma ts_min_elem d ds : ts_min d ds ∈ d :: ds.
Proof.
  unfold ts_min. revert d. induction ds as [|x ds IH]; intros d; simpl.
  - apply list_elem_of_here.
  - specialize (IH (Z.min d x)). apply elem_of_cons in IH as [IH|IH].
    + rewrite IH. destruct (Z.min_spec d x) as [[_ ->]|[_ ->]].
      * apply list_elem_of_here.
      * apply list_elem_of_further, list_elem_of_here.
    + by do 2 apply list_elem_of_further.
Qed.

Lemma NoDup_fmap_eq {A B} (f : A → B) (l : list A) x y :
  NoDup (f <$> l) → x ∈ l → y ∈ l → f x = f y → x = y.
Proof.
  induction l as [|z l IH]; simpl; intros Hnd Hx Hy Hxy.
  - by apply elem_of_nil in Hx.
  - apply NoDup_cons in Hnd as [Hz Hnd].
    apply elem_of_cons in Hx as [->|Hx]; apply elem_of_cons in Hy as [->|Hy].
    + done.
    + exfalso. apply Hz. rewrite Hxy. by apply list_elem_of_fmap_2.
    + exfalso. apply Hz. rewrite <- Hxy. by apply list_elem_of_fmap_2.
    + by apply IH.
Qed.

Lemma omap_id_fmap {A B} (f : A → option B) (l : list A) :
  omap id (f <$> l) = omap f l.
Proof.
  induction l as [|x l IH]; csimpl; [done|].
  destruct (f x); csimpl; by rewrite IH.
Qed.

Section engine_facts.
Context {rt : PyRuntime}.
Variable mapping : list (list N * list (list N)).

Lemma elem_of_dropna_name (df : list RawRecord) (r : NamedRecord) :
  r ∈ dropna_name df ↔
  ∃ r0, r0 ∈ df ∧ raw_product_name r0 = Some (rec_name r)
        ∧ raw_product_id r0 = rec_id r ∧ created_at r0 = rec_created_at r.
Proof.
  unfold dropna_name. rewrite list_elem_of_omap. split.
  - intros (r0 & Hin & Hr). exists r0. split; [done|].
    destruct (raw_product_name r0) as [n|]; simpl in Hr; [|done].
    injection Hr as <-. done.
  - intros (r0 & Hin & Hn & Hi & Hc). exists r0. split; [done|].
    rewrite Hn. simpl. destruct r. simpl in *. by subst.
Qed.

Lemma elem_of_surviving (df : list RawRecord) (r : NamedRecord) :
  r ∈ surviving df ↔
  strip (rec_name r) ≠ py "0" ∧
  ∃ r0, r0 ∈ df ∧ raw_product_name r0 = Some (rec_name r)
        ∧ raw_product_id r0 = rec_id r ∧ created_at r0 = rec_created_at r.
Proof.
  unfold surviving, drop_zero.
  by rewrite list_elem_of_filter, elem_of_dropna_name.
Qed.

Lemma create_unfold (df : list RawRecord) :
  create_parent_child_master_table mapping df
  = result_map sort_values
      (result_mapM (finish_row mapping) (parent_groups mapping (surviving df))).
Proof. by destruct df. Qed.

Lemma elem_of_group_keys (sdf : list NamedRecord) key :
  key ∈ group_keys mapping sdf ↔
  ∃ r, r ∈ sdf ∧ resolved_parent mapping sdf r = Some key.
Proof.
  unfold group_keys. by rewrite elem_of_sorted_unique, list_elem_of_omap.
Qed.

Lemma elem_of_group_of (sdf : list NamedRecord) key r :
  r ∈ group_of mapping sdf key ↔
  r ∈ sdf ∧ resolved_parent mapping sdf r = Some key.
Proof. unfold group_of. rewrite list_elem_of_filter. tauto. Qed.

Lemma resolved_parent_is_Some (sdf : list NamedRecord) r :
  r ∈ sdf → is_Some (resolved_parent mapping sdf r).
Proof.
  intros Hin. unfold resolved_parent.
  destruct (parent_name_from_map mapping r); [done|].
  unfold parent_name_for_unmapped.
  destruct (filter _ sdf) as [|r' l] eqn:Hf; [|done].
  exfalso. eapply (filter_nil_not_elem_of _ _ r); [exact Hf|done|done].
Qed.

Lemma finish_row_Ok g row : finish_row mapping g = Ok row → row_of_group mapping g row.
Proof.
  unfold finish_row, row_of_group.
  destruct (_generate_stable_uuid (parent_name g)) as [pid|e]; simpl; [|done].
  by intros [= <-].
Qed.

Lemma create_Ok_rows df T :
  create_parent_child_master_table mapping df = Ok T →
  ∃ rows, Forall2 (row_of_group mapping) (parent_groups mapping (surviving df)) rows
          ∧ T = sort_values rows.
Proof.
  rewrite create_unfold.
  destruct (result_mapM _ _) as [rows|e] eqn:Hm; simpl; [|done].
  intros [= <-]. exists rows. split; [|done].
  apply result_mapM_Ok in Hm. eapply Forall2_impl; [exact Hm|].
  apply finish_row_Ok.
Qed.

Lemma sort_values_Permutation rows : sort_values rows ≡ₚ rows.
Proof. apply merge_sort_Permutation. Qed.

Lemma master_row_inv df T row :
  create_parent_child_master_table mapping df = Ok T → row ∈ T →
  ∃ key, key ∈ group_keys mapping (surviving df)
         ∧ row_of_key mapping (surviving df) key row.
Proof.
  intros (rows & Hrows & ->)%create_Ok_rows Hin.
  rewrite sort_values_Permutation in Hin.
  apply list_elem_of_lookup in Hin as [i Hi].
  destruct (Forall2_lookup_r _ _ _ _ _ Hrows Hi) as (g & Hg & Hrow).
  apply list_elem_of_lookup_2 in Hg. unfold parent_groups in Hg.
  apply list_elem_of_fmap in Hg as (key & -> & Hkey).
  exists key. split; [done|].
  destruct Hrow as (H1 & H2 & H3 & H4 & H5 & H6). simpl in *.
  by repeat split.
Qed.

Lemma master_row_exists df T key :
  create_parent_child_master_table mapping df = Ok T →
  key ∈ group_keys mapping (surviving df) →
  ∃ row, row ∈ T ∧ row_of_key mapping (surviving df) key row.
Proof.
  intros (rows & Hrows & ->)%create_Ok_rows Hkey.
  apply list_elem_of_lookup in Hkey as [i Hi].
  assert (parent_groups mapping (surviving df) !! i = Some
    {| parent_name := key;
       group_ids := agg_ids (group_of mapping (surviving df) key);
       group_names := agg_names (group_of mapping (surviving df) key);
       group_created_at := agg_created_at
         (parsed_created_at (surviving df) <$> group_of mapping (surviving df) key) |})
    as Hg.
  { unfold parent_groups. by rewrite list_lookup_fmap, Hi. }
  destruct (Forall2_lookup_l _ _ _ _ _ Hrows Hg) as (row & Hrow & Hr).
  exists row. split.
  - rewrite sort_values_Permutation. by eapply list_elem_of_lookup_2.
  - destruct Hr as (H1 & H2 & H3 & H4 & H5 & H6). simpl in *.
    by repeat split.
Qed.

Lemma master_parent_names df T :
  create_parent_child_master_table mapping df = Ok T →
  parent_product_name <$> T ≡ₚ group_keys mapping (surviving df).
Proof.
  intros (rows & Hrows & ->)%create_Ok_rows.
  rewrite sort_values_Permutation.
  assert (parent_product_name <$> rows
          = parent_name <$> parent_groups mapping (surviving df)) as Hx.
  { induction Hrows as [|g row gs rows Hg _ IH]; csimpl; [done|].
    destruct Hg as (_ & -> & _). by rewrite IH. }
  rewrite Hx. unfold parent_groups. rewrite <- list_fmap_compose.
  by rewrite list_fmap_id.
Qed.

Lemma NoDup_group_keys sdf : NoDup (group_keys mapping sdf).
Proof.
  unfold group_keys. rewrite sorted_Permutation. apply NoDup_unique.
Qed.

Lemma master_parent_names_NoDup df T :
  create_parent_child_master_table mapping df = Ok T →
  NoDup (parent_product_name <$> T).
Proof. intros ->%master_parent_names. apply NoDup_group_keys. Qed.

Lemma elem_of_agg_ids g x :
  x ∈ agg_ids g ↔ ∃ r, r ∈ g ∧ astype_str (rec_id r) = x.
Proof.
  unfold agg_ids. rewrite elem_of_sorted_unique, list_elem_of_fmap.
  split; intros (r & ? & ?); exists r; by split.
Qed.

Lemma elem_of_agg_names g x :
  x ∈ agg_names g ↔ ∃ r, r ∈ g ∧ rec_name r = x.
Proof.
  unfold agg_names. rewrite elem_of_sorted_unique, list_elem_of_fmap.
  split; intros (r & ? & ?); exists r; by split.
Qed.

(** A surviving record is listed in the row of the parent it resolves to. *)
Lemma record_in_its_row df T r p :
  create_parent_child_master_table mapping df = Ok T →
  r ∈ surviving df →
  resolved_parent mapping (surviving df) r = Some p →
  ∃ row, row ∈ T ∧ parent_product_name row = p
         ∧ astype_str (rec_id r) ∈ child_product_ids row
         ∧ rec_name r ∈ child_product_names row.
Proof.
  intros HT Hr Hp.
  destruct (master_row_exists df T p HT) as (row & Hrow & Hn & Hi & Hc & _).
  { apply elem_of_group_keys. eauto. }
  exists row. split; [done|]. split; [done|].
  rewrite Hi, Hc, elem_of_agg_ids, elem_of_agg_names.
  split; exists r; (split; [by apply elem_of_group_of|done]).
Qed.

(** C3. A surviving record whose cleaned name is a key of the inverted
    alias table resolves to the parent declared for that key, whatever
    other records share its cleaned name, and the master table has a row
    for that parent listing the record's id and raw name. *)
Theorem alias_precedence df T r p :
  create_parent_child_master_table mapping df = Ok T →
  r ∈ surviving df →
  CHILD_TO_PARENT_MAP mapping !! clean_name (rec_name r) = Some p →
  resolved_parent mapping (surviving df) r = Some p
  ∧ ∃ row, row ∈ T ∧ parent_product_name row = p
           ∧ astype_str (rec_id r) ∈ child_product_ids row
           ∧ rec_name r ∈ child_product_names row.
Proof.
  intros HT Hr Hp.
  assert (resolved_parent mapping (surviving df) r = Some p) as Hres.
  { unfold resolved_parent, parent_name_from_map, cleaned_name. by rewrite Hp. }
  split; [done|]. by eapply record_in_its_row.
Qed.

(** C4. For a cleaned name that is not a key of the alias table, all
    surviving records with that cleaned name resolve to the raw name of
    the first of them in frame order, and are listed together in the one
    row of the master table that bears that name. *)
Theorem fallback_first_raw_name df T key first :
  create_parent_child_master_table mapping df = Ok T →
  CHILD_TO_PARENT_MAP mapping !! key = None →
  head (filter (λ r, cleaned_name r = key) (surviving df)) = Some first →
  ∃ row, row ∈ T ∧ parent_product_name row = rec_name first
    ∧ (∀ row', row' ∈ T → parent_product_name row' = rec_name first → row' = row)
    ∧ ∀ r, r ∈ surviving df → cleaned_name r = key →
        resolved_parent mapping (surviving df) r = Some (rec_name first)
        ∧ astype_str (rec_id r) ∈ child_product_ids row
        ∧ rec_name r ∈ child_product_names row.
Proof.
  intros HT Hk Hfirst.
  assert (∀ r, r ∈ surviving df → cleaned_name r = key →
            resolved_parent mapping (surviving df) r = Some (rec_name first))
    as Hres.
  { intros r Hr Hc. unfold resolved_parent, parent_name_from_map.
    rewrite Hc, Hk. unfold parent_name_for_unmapped. by rewrite Hc, Hfirst. }
  assert (first ∈ surviving df ∧ cleaned_name first = key) as [Hf1 Hf2].
  { apply head_Some in Hfirst as [l Hl].
    assert (first ∈ filter (λ r, cleaned_name r = key) (surviving df)) as Hin
      by (rewrite Hl; apply list_elem_of_here).
    apply list_elem_of_filter in Hin. tauto. }
  destruct (record_in_its_row df T first (rec_name first) HT Hf1 (Hres _ Hf1 Hf2))
    as (row & Hrow & Hn & _).
  exists row. split; [done|]. split; [done|]. split.
  - intros row' Hrow' Hn'.
    eapply (NoDup_fmap_eq parent_product_name T);
      [by eapply master_parent_names_NoDup|done|done|congruence].
  - intros r Hr Hc. split; [by apply Hres|].
    destruct (record_in_its_row df T r (rec_name first) HT Hr (Hres _ Hr Hc))
      as (row2 & Hrow2 & Hn2 & Hi & Hcn).
    assert (row2 = row) as ->; [|done].
    eapply (NoDup_fmap_eq parent_product_name T);
      [by eapply master_parent_names_NoDup|done|done|congruence].
Qed.

(** C8. On an empty frame the function returns the empty table; it does
    not raise. *)
Theorem empty_input_empty_table :
  create_parent_child_master_table mapping [] = Ok [].
Proof. reflexivity. Qed.

#[local] Instance row_le_trans : Transitive row_le.
Proof. intros a b c. unfold row_le. apply str_le_trans. Qed.

#[local] Instance row_le_total : Total row_le.
Proof. intros a b. unfold row_le. apply str_le_total. Qed.

(** C9. The rows of the master table are in strictly ascending order of
    parent name, and in every row the child ids and the child names are in
    strictly ascending order, hence without duplicates. *)
Theorem master_table_sorted df T :
  create_parent_child_master_table mapping df = Ok T →
  StronglySorted str_lt (parent_product_name <$> T)
  ∧ Forall (λ row,
      StronglySorted str_lt (child_product_ids row)
      ∧ NoDup (child_product_ids row)
      ∧ StronglySorted str_lt (child_product_names row)
      ∧ NoDup (child_product_names row)) T.
Proof.
  intros HT. split.
  - apply StronglySorted_strict; [|by eapply master_parent_names_NoDup].
    destruct (create_Ok_rows _ _ HT) as (rows & _ & ->).
    apply (StronglySorted_fmap parent_product_name row_le str_le); [by intros a b|].
    apply StronglySorted_merge_sort; apply _.
  - apply Forall_forall. intros row Hrow.
    destruct (master_row_inv df T row HT Hrow) as (key & _ & _ & -> & -> & _).
    unfold agg_ids, agg_names.
    pose proof sorted_unique_strict as Hs.
    repeat split; auto using StronglySorted_str_lt_NoDup.
Qed.

(** C6. The [created_at] of a row is the least timestamp among the
    records of its group whose [created_at] is present and parses; records
    without one (null, or coerced to [NaT]) do not take part, and the row
    has no timestamp exactly when no record of the group has one. *)
Theorem created_at_is_group_minimum df T row :
  create_parent_child_master_table mapping df = Ok T →
  row ∈ T →
  let sdf := surviving df in
  let in_group r :=
    r ∈ sdf ∧ resolved_parent mapping sdf r = Some (parent_product_name row) in
  match master_created_at row with
  | None => ∀ r, in_group r → parsed_created_at sdf r = None
  | Some m =>
      (∃ r, in_group r ∧ parsed_created_at sdf r = Some m)
      ∧ ∀ r d, in_group r → parsed_created_at sdf r = Some d → (m ≤ d)%Z
  end.
Proof.
  intros HT Hrow sdf in_group.
  destruct (master_row_inv df T row HT Hrow) as (key & _ & Hn & _ & _ & Hc & _).
  rewrite Hc. unfold agg_created_at. rewrite omap_id_fmap.
  fold sdf. subst in_group. cbv beta. rewrite Hn.
  destruct (omap _ _) as [|d ds] eqn:Hd.
  - intros r Hr%elem_of_group_of.
    destruct (parsed_created_at sdf r) as [x|] eqn:Hx; [|done].
    assert (x ∈ omap (parsed_created_at sdf) (group_of mapping sdf key)) as Hin
      by (apply list_elem_of_omap; eauto).
    rewrite Hd in Hin. by apply elem_of_nil in Hin.
  - split.
    + pose proof (ts_min_elem d ds) as Hin. rewrite <- Hd in Hin.
      apply list_elem_of_omap in Hin as (r & Hr%elem_of_group_of & Hp). eauto.
    + intros r x Hr%elem_of_group_of Hx.
      assert (x ∈ d :: ds) as Hin by (rewrite <- Hd; apply list_elem_of_omap; eauto).
      destruct (ts_min_le d ds) as [H1 H2].
      apply elem_of_cons in Hin as [->|Hin]; [done|].
      by eapply Forall_forall in H2.
Qed.

(** C5, as the code has it. The ids listed in the rows are exactly the
    stringified ids of the surviving records; an id is listed in a row
    exactly when a surviving record with that stringified id resolves to
    the parent of the row; so no id is listed in two rows as soon as
    surviving records with equal stringified ids resolve to the same
    parent (for instance when the ids are pairwise distinct). *)
Theorem child_ids_cover_survivors df T :
  create_parent_child_master_table mapping df = Ok T →
  let sdf := surviving df in
  ids_covered ((λ r, astype_str (rec_id r)) <$> sdf) T
  ∧ (∀ row x, row ∈ T →
       x ∈ child_product_ids row ↔
       ∃ r, r ∈ sdf ∧ astype_str (rec_id r) = x
            ∧ resolved_parent mapping sdf r = Some (parent_product_name row))
  ∧ ((∀ r1 r2, r1 ∈ sdf → r2 ∈ sdf →
         astype_str (rec_id r1) = astype_str (rec_id r2) →
         resolved_parent mapping sdf r1 = resolved_parent mapping sdf r2) →
     ids_disjoint T).
Proof.
  intros HT sdf.
  assert (∀ row x, row ∈ T →
       x ∈ child_product_ids row ↔
       ∃ r, r ∈ sdf ∧ astype_str (rec_id r) = x
            ∧ resolved_parent mapping sdf r = Some (parent_product_name row))
    as Hchar.
  { intros row x Hrow.
    destruct (master_row_inv df T row HT Hrow) as (key & _ & Hn & Hi & _).
    rewrite Hi, elem_of_agg_ids, Hn. fold sdf. split.
    - intros (r & [Hr Hp]%elem_of_group_of & Hx). eauto.
    - intros (r & Hr & Hx & Hp). exists r. split; [|done].
      by apply elem_of_group_of. }
  split; [|split; [done|]].
  - intros x. rewrite list_elem_of_fmap. split.
    + intros (row & Hrow & Hx). apply Hchar in Hx as (r & Hr & Hx & _); [|done].
      eauto.
    + intros (r & -> & Hr).
      destruct (resolved_parent_is_Some sdf r Hr) as [p Hp].
      destruct (record_in_its_row df T r p HT Hr Hp)
        as (row & Hrow & _ & Hi & _).
      eauto.
  - intros Hsame row1 row2 x Hrow1 Hrow2 Hx1 Hx2.
    apply Hchar in Hx1 as (r1 & Hr1 & Hx1 & Hp1); [|done].
    apply Hchar in Hx2 as (r2 & Hr2 & Hx2 & Hp2); [|done].
    eapply (NoDup_fmap_eq parent_product_name T);
      [by eapply master_parent_names_NoDup|done|done|].
    assert (Some (parent_product_name row1) = Some (parent_product_name row2))
      as [= ->]; [|done].
    rewrite <- Hp1, <- Hp2. apply Hsame; [done|done|congruence].
Qed.

Lemma create_child_map_pairs m0 :
  foldl (λ child_map '(parent, children),
           foldl (λ child_map child, <[clean_name child := parent]> child_map)
                 child_map children) m0 mapping
  = foldl (λ (m : gmap (list N) (list N)) pc, <[clean_name pc.2 := pc.1]> m)
          m0 (alias_pairs mapping).
Proof.
  unfold alias_pairs. revert m0.
  induction mapping as [|[parent children] rest IH]; intros m0; [done|].
  rewrite bind_cons, foldl_app. simpl. rewrite IH. f_equal.
  by rewrite foldl_fmap.
Qed.

Lemma lookup_foldl_insert (pairs : list (list N * list N))
    (m0 : gmap (list N) (list N)) key :
  foldl (λ (m : gmap (list N) (list N)) pc, <[clean_name pc.2 := pc.1]> m)
        m0 pairs !! key
  = match last (filter (λ pc, clean_name pc.2 = key) pairs) with
    | Some pc => Some pc.1
    | None => m0 !! key
    end.
Proof.
  induction pairs as [|pc pairs IH] using rev_ind; [done|].
  rewrite foldl_snoc, filter_app, filter_cons, filter_nil.
  case_decide as Hk.
  - rewrite last_snoc, <- Hk. apply lookup_insert_eq.
  - rewrite app_nil_r, lookup_insert_ne by done. apply IH.
Qed.


(** C7. Building the inverted map never fails, and a key resolves to the
    parent of the last pair (parent, alias), in the iteration order of the
    authoring structure, whose alias cleans to that key: an alias declared
    under two parents belongs to the one written last. *)
Theorem child_map_last_write_wins (key : list N) :
  _create_child_to_parent_map mapping !! key
  = fst <$> last (filter (λ pc, clean_name pc.2 = key) (alias_pairs mapping)).
Proof.
  unfold _create_child_to_parent_map.
  rewrite create_child_map_pairs, lookup_foldl_insert.
  by destruct (last _).
Qed.
End engine_facts.

(** ** The ASCII case mapping *)

Lemma ascii_lower_nil : ascii_lower [] = [].
Proof. reflexivity. Qed.

Lemma ascii_lower_space a b :
  ascii_lower (a ++ SPACE :: b) = ascii_lower a ++ SPACE :: ascii_lower b.
Proof. unfold ascii_lower. by rewrite fmap_app. Qed.

Lemma is_space_true c :
  is_space c = true →
  (0x09 ≤ c ≤ 0x0D ∨ 0x1C ≤ c ≤ 0x20 ∨ c = 0x85 ∨ c = 0xA0 ∨ c = 0x1680
   ∨ 0x2000 ≤ c ≤ 0x200A ∨ c = 0x2028 ∨ c = 0x2029 ∨ c = 0x202F
   ∨ c = 0x205F ∨ c = 0x3000)%N.
Proof.
  unfold is_space.
  rewrite !orb_true_iff, !andb_true_iff, !N.leb_le, !N.eqb_eq. tauto.
Qed.

Lemma ascii_lower_cp_space c :
  is_space c = false → is_space (ascii_lower_cp c) = false.
Proof.
  intros Hc. unfold ascii_lower_cp.
  destruct (_ && _) eqn:Hletter; [|done].
  apply andb_prop in Hletter as [H1%N.leb_le H2%N.leb_le].
  apply not_true_is_false. intros Hs%is_space_true. lia.
Qed.

Lemma ascii_lower_word w : is_word w → is_word (ascii_lower w).
Proof.
  intros [Hne Hw]. split.
  - by destruct w.
  - unfold ascii_lower. apply Forall_fmap.
    eapply Forall_impl; [exact Hw|]. apply ascii_lower_cp_space.
Qed.

Lemma ascii_lower_cp_idemp c :
  ascii_lower_cp (ascii_lower_cp c) = ascii_lower_cp c.
Proof.
  unfold ascii_lower_cp.
  destruct ((0x41 <=? c) && (c <=? 0x5A)) eqn:H1; [|by rewrite H1].
  apply andb_prop in H1 as [H1%N.leb_le H2%N.leb_le].
  destruct (_ && _) eqn:H3; [|done].
  apply andb_prop in H3 as [H3%N.leb_le H4%N.leb_le]. lia.
Qed.

Lemma ascii_lower_idemp s : ascii_lower (ascii_lower s) = ascii_lower s.
Proof.
  unfold ascii_lower. rewrite <- list_fmap_compose.
  apply list_fmap_ext. intros _ c _. apply ascii_lower_cp_idemp.
Qed.

(** ** The statements on concrete inputs *)

Lemma clean_name_idempotent_witness :
  clean_name (clean_name (py "  Tomatoes   Grade A "))
  = clean_name (py "  Tomatoes   Grade A ").
Proof.
  apply (clean_name_idempotent (rt:=ascii_runtime)
           ascii_lower_nil ascii_lower_space ascii_lower_word ascii_lower_idemp).
Defined.


Lemma alias_precedence_witness :
  let r := {| rec_id := py "A2"; rec_name := py " tomato a ";
              rec_created_at := Some (py "20240103") |} in
  create_parent_child_master_table demo_mapping demo_df = Ok demo_table
  ∧ r ∈ surviving demo_df
  ∧ CHILD_TO_PARENT_MAP demo_mapping !! clean_name (rec_name r)
    = Some (py "Tomato A")
  ∧ resolved_parent demo_mapping (surviving demo_df) r = Some (py "Tomato A")
  ∧ ∃ row, row ∈ demo_table ∧ parent_product_name row = py "Tomato A"
           ∧ astype_str (rec_id r) ∈ child_product_ids row
           ∧ rec_name r ∈ child_product_names row.
Proof.
  intros r.
  assert (create_parent_child_master_table demo_mapping demo_df = Ok demo_table)
    as H1 by (vm_compute; reflexivity).
  assert (r ∈ surviving demo_df) as H2.
  { apply list_elem_of_lookup. exists 1%nat. vm_compute. reflexivity. }
  assert (CHILD_TO_PARENT_MAP demo_mapping !! clean_name (rec_name r)
          = Some (py "Tomato A")) as H3 by (vm_compute; reflexivity).
  split; [exact H1|]. split; [exact H2|]. split; [exact H3|].
  exact (alias_precedence demo_mapping demo_df demo_table r (py "Tomato A") H1 H2 H3).
Defined.

Lemma fallback_first_raw_name_witness :
  let first := {| rec_id := py "Z1"; rec_name := py "Zug Soap";
                  rec_created_at := Some (py "n/a") |} in
  create_parent_child_master_table demo_mapping demo_df = Ok demo_table
  ∧ CHILD_TO_PARENT_MAP demo_mapping !! py "zug soap" = None
  ∧ head (filter (λ r, cleaned_name r = py "zug soap") (surviving demo_df))
    = Some first
  ∧ ∃ row, row ∈ demo_table ∧ parent_product_name row = rec_name first
      ∧ (∀ row', row' ∈ demo_table →
           parent_product_name row' = rec_name first → row' = row)
      ∧ ∀ r, r ∈ surviving demo_df → cleaned_name r = py "zug soap" →
          resolved_parent demo_mapping (surviving demo_df) r
          = Some (rec_name first)
          ∧ astype_str (rec_id r) ∈ child_product_ids row
          ∧ rec_name r ∈ child_product_names row.
Proof.
  intros first.
  assert (create_parent_child_master_table demo_mapping demo_df = Ok demo_table)
    as H1 by (vm_compute; reflexivity).
  assert (CHILD_TO_PARENT_MAP demo_mapping !! py "zug soap" = None)
    as H2 by (vm_compute; reflexivity).
  assert (head (filter (λ r, cleaned_name r = py "zug soap") (surviving demo_df))
          = Some first) as H3 by (vm_compute; reflexivity).
  split; [exact H1|]. split; [exact H2|]. split; [exact H3|].
  exact (fallback_first_raw_name demo_mapping demo_df demo_table
           (py "zug soap") first H1 H2 H3).
Defined.

Lemma master_table_sorted_witness :
  create_parent_child_master_table demo_mapping demo_df = Ok demo_table
  ∧ StronglySorted str_lt (parent_product_name <$> demo_table)
  ∧ Forall (λ row,
      StronglySorted str_lt (child_product_ids row)
      ∧ NoDup (child_product_ids row)
      ∧ StronglySorted str_lt (child_product_names row)
      ∧ NoDup (child_product_names row)) demo_table.
Proof.
  assert (create_parent_child_master_table demo_mapping demo_df = Ok demo_table)
    as H1 by (vm_compute; reflexivity).
  split; [exact H1|].
  exact (master_table_sorted demo_mapping demo_df demo_table H1).
Defined.

Lemma created_at_is_group_minimum_witness :
  ∃ row, demo_table !! 0%nat = Some row
  ∧ create_parent_child_master_table demo_mapping demo_df = Ok demo_table
  ∧ master_created_at row = Some 20240101%Z
  ∧ let sdf := surviving demo_df in
    let in_group r :=
      r ∈ sdf ∧ resolved_parent demo_mapping sdf r = Some (parent_product_name row) in
    match master_created_at row with
    | None => ∀ r, in_group r → parsed_created_at sdf r = None
    | Some m =>
        (∃ r, in_group r ∧ parsed_created_at sdf r = Some m)
        ∧ ∀ r d, in_group r → parsed_created_at sdf r = Some d → (m ≤ d)%Z
    end.
Proof.
  assert (create_parent_child_master_table demo_mapping demo_df = Ok demo_table)
    as H1 by (vm_compute; reflexivity).
  eexists. split; [reflexivity|]. split; [exact H1|]. split; [reflexivity|].
  apply (created_at_is_group_minimum demo_mapping demo_df demo_table _ H1).
  apply list_elem_of_here.
Defined.

(** C5 as stated fails: two records that carry the id [1] and resolve to
    different parents put [1] in the child ids of both rows. *)
Lemma shared_id_in_two_rows :
  create_parent_child_master_table [] shared_id_df = Ok shared_id_table
  ∧ ¬ (ids_covered ((λ r, astype_str (rec_id r)) <$> surviving shared_id_df)
         shared_id_table
       ∧ ids_disjoint shared_id_table).
Proof.
  split; [vm_compute; reflexivity|].
  intros [_ Hdis].
  assert (∃ row1 row2, shared_id_table !! 0%nat = Some row1
            ∧ shared_id_table !! 1%nat = Some row2) as (row1 & row2 & Hr1 & Hr2)
    by (do 2 eexists; split; reflexivity).
  specialize (Hdis row1 row2 (py "1")).
  injection Hr1 as <-. injection Hr2 as <-.
  assert (∀ a b : MasterRow, a = b → parent_product_name a = parent_product_name b)
    as Hf by (by intros a b ->).
  apply Hf in Hdis.
  - vm_compute in Hdis. discriminate Hdis.
  - apply list_elem_of_here.
  - apply list_elem_of_further, list_elem_of_here.
  - apply list_elem_of_here.
  - apply list_elem_of_here.
Qed.

Lemma child_ids_cover_survivors_witness :
  create_parent_child_master_table demo_mapping demo_df = Ok demo_table
  ∧ ids_covered ((λ r, astype_str (rec_id r)) <$> surviving demo_df) demo_table
  ∧ ids_disjoint demo_table.
Proof.
  assert (create_parent_child_master_table demo_mapping demo_df = Ok demo_table)
    as H1 by (vm_compute; reflexivity).
  split; [exact H1|].
  destruct (child_ids_cover_survivors demo_mapping demo_df demo_table H1)
    as (Hc & _ & Hd).
  split; [exact Hc|]. apply Hd.
  assert (Forall (λ r1, Forall (λ r2,
            astype_str (rec_id r1) = astype_str (rec_id r2) →
            resolved_parent demo_mapping (surviving demo_df) r1
            = resolved_parent demo_mapping (surviving demo_df) r2)
            (surviving demo_df)) (surviving demo_df)) as Hall.
  { apply (bool_decide_unpack _). vm_compute. exact I. }
  intros r1 r2 Hr1 Hr2.
  eapply Forall_forall in Hall; [|exact Hr1].
  eapply Forall_forall in Hall; [|exact Hr2].
  exact Hall.
Defined.

(** C2, at the input where the code departs from it. A record whose name is
    the empty string is neither null nor ['0'] once stripped, so lines
    106-109 keep it: it reaches the grouping and the master table gets a row
    whose parent name is the empty string. *)
Example empty_name_reaches_master_table :
  create_parent_child_master_table demo_mapping empty_name_df
  = Ok [ {| parent_product_id := py "4ebd0208-8328-5d69-8c44-ec50939c0967";
            parent_product_name := [];
            child_product_ids := [py "A1"];
            child_product_names := [[]];
            all_possible_child_names := [[]];
            master_created_at := None |} ].
Proof. vm_compute. reflexivity. Qed.

(** ** Further properties: errors of the identifier generator *)


Lemma generate_stable_uuid_is_Ok name :
  (∃ u, _generate_stable_uuid name = Ok u) ↔ is_Some (utf8_encode name).
Proof.
  unfold _generate_stable_uuid, uuid5.
  destruct (utf8_encode name); cbn [result_map].
  - split; [by intros _; eexists|]. intros _. eexists. reflexivity.
  - split; [intros [? [=]]|intros [? [=]]].
Qed.

Lemma utf8_cp_is_Some c : is_Some (utf8_cp c) ↔ is_scalar c.
Proof.
  split; [|apply utf8_cp_scalar].
  unfold utf8_cp, is_scalar.
  repeat case_match; intros [b Hb]; try done;
    repeat match goal with
    | H : (_ <? _) = true |- _ => apply N.ltb_lt in H
    | H : (_ <? _) = false |- _ => apply N.ltb_ge in H
    | H : (_ && _) = false |- _ => apply andb_false_iff in H as [H|H]
    | H : (_ <=? _) = false |- _ => apply N.leb_gt in H
    end; lia.
Qed.

Lemma utf8_encode_is_Some name :
  is_Some (utf8_encode name) ↔ Forall is_scalar name.
Proof.
  induction name as [|c name IH]; simpl.
  - split; [constructor|done].
  - rewrite Forall_cons, <- IH, <- utf8_cp_is_Some.
    destruct (utf8_cp c) as [b|], (utf8_encode name) as [bs|]; split;
      try done; rewrite <- ?not_eq_None_Some; tauto.
Qed.

(** X10. [_generate_stable_uuid] returns an identifier exactly for the
    names made of Unicode scalar values, and raises [UnicodeEncodeError]
    exactly for the names that hold a lone surrogate. *)
Theorem generate_stable_uuid_raises_iff_surrogate (name : list N) :
  ((∃ u, _generate_stable_uuid name = Ok u) ↔ Forall is_scalar name)
  ∧ (_generate_stable_uuid name = Raise UnicodeEncodeError
     ↔ ¬ Forall is_scalar name).
Proof.
  rewrite <- utf8_encode_is_Some. split; [apply generate_stable_uuid_is_Ok|].
  unfold _generate_stable_uuid, uuid5.
  destruct (utf8_encode name); cbn [result_map].
  - split; [intros [=]|]. intros Hn. destruct Hn. by eexists.
  - split; [|reflexivity]. intros _ [? [=]].
Qed.

(** ** Further properties: the rows of the master table *)

Lemma str_lt_asym a b : str_lt a b → str_lt b a → False.
Proof. intros H1 H2. exact (str_lt_irrefl a (str_lt_trans a b a H1 H2)). Qed.

Lemma strictly_sorted_eq (l1 l2 : list (list N)) :
  StronglySorted str_lt l1 → StronglySorted str_lt l2 →
  (∀ x, x ∈ l1 ↔ x ∈ l2) → l1 = l2.
Proof.
  intros H1 H2 Hel. apply (StronglySorted_unique_strong str_lt); [|done|done|].
  - intros x1 x2 _ _ Ha Hb. destruct (str_lt_asym _ _ Ha Hb).
  - apply NoDup_Permutation; auto using StronglySorted_str_lt_NoDup.
Qed.

Lemma sorted_unique_ext (l1 l2 : list (list N)) :
  (∀ x, x ∈ l1 ↔ x ∈ l2) → sorted (unique l1) = sorted (unique l2).
Proof.
  intros Hel. apply strictly_sorted_eq; try apply sorted_unique_strict.
  intros x. by rewrite !elem_of_sorted_unique.
Qed.

Lemma length_unique_from `{EqDecision A} (seen l : list A) :
  (length (unique_from seen l) ≤ length l)%nat.
Proof.
  revert seen. induction l as [|x l IH]; intros seen; simpl; [done|].
  case_decide; simpl; [specialize (IH seen)|specialize (IH (x :: seen))]; lia.
Qed.

Lemma length_unique `{EqDecision A} (l : list A) :
  (length (unique l) ≤ length l)%nat.
Proof. apply length_unique_from. Qed.

Lemma length_omap_le {A B} (f : A → option B) (l : list A) :
  (length (omap f l) ≤ length l)%nat.
Proof.
  induction l as [|x l IH]; csimpl; [done|]. destruct (f x); simpl; lia.
Qed.

Section engine_more.
Context {rt : PyRuntime}.
Variable mapping : list (list N * list (list N)).

Lemma resolved_parent_by_name (sdf : list NamedRecord) r1 r2 :
  rec_name r1 = rec_name r2 →
  resolved_parent mapping sdf r1 = resolved_parent mapping sdf r2.
Proof.
  intros Hn.
  unfold resolved_parent, parent_name_from_map, parent_name_for_unmapped,
    cleaned_name.
  by rewrite Hn.
Qed.

Lemma elem_of_child_ids df T row x :
  create_parent_child_master_table mapping df = Ok T → row ∈ T →
  x ∈ child_product_ids row ↔
  ∃ r, r ∈ surviving df ∧ astype_str (rec_id r) = x
       ∧ resolved_parent mapping (surviving df) r = Some (parent_product_name row).
Proof.
  intros HT Hrow.
  destruct (master_row_inv mapping df T row HT Hrow) as (key & _ & Hn & Hi & _).
  rewrite Hi, elem_of_agg_ids, Hn. split.
  - intros (r & [Hr Hp]%elem_of_group_of & Hx). eauto.
  - intros (r & Hr & Hx & Hp). exists r. split; [|done].
    by apply elem_of_group_of.
Qed.

Lemma elem_of_child_names df T row x :
  create_parent_child_master_table mapping df = Ok T → row ∈ T →
  x ∈ child_product_names row ↔
  ∃ r, r ∈ surviving df ∧ rec_name r = x
       ∧ resolved_parent mapping (surviving df) r = Some (parent_product_name row).
Proof.
  intros HT Hrow.
  destruct (master_row_inv mapping df T row HT Hrow) as (key & _ & Hn & _ & Hc & _).
  rewrite Hc, elem_of_agg_names, Hn. split.
  - intros (r & [Hr Hp]%elem_of_group_of & Hx). eauto.
  - intros (r & Hr & Hx & Hp). exists r. split; [|done].
    by apply elem_of_group_of.
Qed.

Lemma same_parent_same_row df T row1 row2 :
  create_parent_child_master_table mapping df = Ok T →
  row1 ∈ T → row2 ∈ T →
  parent_product_name row1 = parent_product_name row2 → row1 = row2.
Proof.
  intros HT H1 H2 Hn.
  eapply (NoDup_fmap_eq parent_product_name T);
    [by eapply master_parent_names_NoDup|done|done|done].
Qed.

(** X1. Every surviving record has its raw name listed in the row of the
    parent it resolves to, and no raw name is listed in two rows: records
    with the same raw name always resolve to the same parent. *)
Theorem child_names_in_one_row df T :
  create_parent_child_master_table mapping df = Ok T →
  (∀ r, r ∈ surviving df →
     ∃ row, row ∈ T ∧ rec_name r ∈ child_product_names row
            ∧ resolved_parent mapping (surviving df) r
              = Some (parent_product_name row))
  ∧ (∀ row1 row2 x, row1 ∈ T → row2 ∈ T →
       x ∈ child_product_names row1 → x ∈ child_product_names row2 →
       row1 = row2).
Proof.
  intros HT. split.
  - intros r Hr.
    destruct (resolved_parent_is_Some mapping _ r Hr) as [p Hp].
    destruct (record_in_its_row mapping df T r p HT Hr Hp)
      as (row & Hrow & Hn & _ & Hc).
    exists row. by rewrite Hn.
  - intros row1 row2 x Hrow1 Hrow2 Hx1 Hx2.
    apply (elem_of_child_names df T) in Hx1 as (r1 & Hr1 & Hn1 & Hp1); [|done..].
    apply (elem_of_child_names df T) in Hx2 as (r2 & Hr2 & Hn2 & Hp2); [|done..].
    apply (same_parent_same_row df T); [done..|].
    assert (Some (parent_product_name row1) = Some (parent_product_name row2))
      as [= ->]; [|done].
    rewrite <- Hp1, <- Hp2. apply resolved_parent_by_name. congruence.
Qed.

(** X2. What lines 106-109 let through is exactly what the table lists: a
    name is a child name of some row iff some input record has it as its
    non-null name and its stripped form is not ['0']; an id is a child id of
    some row iff it is the stringified id of such a record. *)
Theorem listed_children_passed_the_filter df T :
  create_parent_child_master_table mapping df = Ok T →
  (∀ x, (∃ row, row ∈ T ∧ x ∈ child_product_names row) ↔
        strip x ≠ py "0" ∧ ∃ r0, r0 ∈ df ∧ raw_product_name r0 = Some x)
  ∧ (∀ x, (∃ row, row ∈ T ∧ x ∈ child_product_ids row) ↔
        ∃ r0 n, r0 ∈ df ∧ raw_product_name r0 = Some n ∧ strip n ≠ py "0"
                ∧ astype_str (raw_product_id r0) = x).
Proof.
  intros HT. split; intros x; split.
  - intros (row & Hrow & Hx).
    apply (elem_of_child_names df T) in Hx as (r & Hr & Hn & _); [|done..].
    apply elem_of_surviving in Hr as (Hz & r0 & Hr0 & Hn0 & _).
    subst x. eauto.
  - intros (Hz & r0 & Hr0 & Hn0).
    assert ({| rec_id := raw_product_id r0; rec_name := x;
               rec_created_at := created_at r0 |} ∈ surviving df) as Hr.
    { apply elem_of_surviving. split; [done|]. exists r0. by simpl. }
    destruct (resolved_parent_is_Some mapping _ _ Hr) as [p Hp].
    destruct (record_in_its_row mapping df T _ p HT Hr Hp)
      as (row & Hrow & _ & _ & Hc). eauto.
  - intros (row & Hrow & Hx).
    apply (elem_of_child_ids df T) in Hx as (r & Hr & Hn & _); [|done..].
    apply elem_of_surviving in Hr as (Hz & r0 & Hr0 & Hn0 & Hi0 & _).
    exists r0, (rec_name r). rewrite Hi0. done.
  - intros (r0 & n & Hr0 & Hn0 & Hz & Hx).
    assert ({| rec_id := raw_product_id r0; rec_name := n;
               rec_created_at := created_at r0 |} ∈ surviving df) as Hr.
    { apply elem_of_surviving. split; [done|]. exists r0. by simpl. }
    destruct (resolved_parent_is_Some mapping _ _ Hr) as [p Hp].
    destruct (record_in_its_row mapping df T _ p HT Hr Hp)
      as (row & Hrow & _ & Hi & _). simpl in Hi. rewrite Hx in Hi. eauto.
Qed.

Lemma master_parent_names_sorted df T :
  create_parent_child_master_table mapping df = Ok T →
  StronglySorted str_lt (parent_product_name <$> T).
Proof.
  intros HT.
  apply StronglySorted_strict; [|by eapply master_parent_names_NoDup].
  destruct (create_Ok_rows _ _ _ HT) as (rows & _ & ->).
  apply (StronglySorted_fmap parent_product_name row_le str_le); [by intros a b|].
  apply StronglySorted_merge_sort.
  - intros a b c. unfold row_le. apply str_le_trans.
  - intros a b. unfold row_le. apply str_le_total.
Qed.

(** X3. The table has one row per distinct resolved parent, in the sorted
    order [groupby] produced (the [sort_values] of line 160 changes
    nothing); it is empty exactly when no record survives the filters, and
    never has more rows than surviving records. *)
Theorem one_row_per_resolved_parent df T :
  create_parent_child_master_table mapping df = Ok T →
  parent_product_name <$> T = group_keys mapping (surviving df)
  ∧ (∀ p, p ∈ parent_product_name <$> T ↔
          ∃ r, r ∈ surviving df
               ∧ resolved_parent mapping (surviving df) r = Some p)
  ∧ (T = [] ↔ surviving df = [])
  ∧ (length T ≤ length (surviving df))%nat.
Proof.
  intros HT.
  assert (parent_product_name <$> T = group_keys mapping (surviving df)) as Hk.
  { apply strictly_sorted_eq.
    - by eapply master_parent_names_sorted.
    - apply sorted_unique_strict.
    - intros x. by rewrite (master_parent_names mapping df T HT). }
  split; [done|]. split; [|split].
  - intros p. rewrite Hk. apply elem_of_group_keys.
  - split.
    + intros ->. destruct (surviving df) as [|r sdf]; [done|]. exfalso.
      assert (r ∈ r :: sdf) as Hr by apply list_elem_of_here.
      destruct (resolved_parent_is_Some mapping _ r Hr) as [p Hp].
      assert (p ∈ group_keys mapping (r :: sdf)) as Hin
        by (apply elem_of_group_keys; eauto).
      rewrite <- Hk in Hin. by apply elem_of_nil in Hin.
    + intros Hs. apply (f_equal length) in Hk.
      rewrite length_fmap, Hs in Hk. by destruct T.
  - rewrite <- (length_fmap parent_product_name), Hk.
    unfold group_keys. rewrite sorted_Permutation.
    etransitivity; [apply length_unique|]. apply length_omap_le.
Qed.
End engine_more.

(** ** Further properties: the inverted alias table, errors, groups *)

Section inverted_map.
Context {rt : PyRuntime}.
Variable mapping : list (list N * list (list N)).

Lemma elem_of_alias_pairs p c :
  (p, c) ∈ alias_pairs mapping ↔ ∃ cs, (p, cs) ∈ mapping ∧ c ∈ cs.
Proof.
  unfold alias_pairs. rewrite list_elem_of_bind. split.
  - intros ([p' cs] & Hin & Hm). apply list_elem_of_fmap in Hin as (c' & [= -> ->] & Hc).
    eauto.
  - intros (cs & Hm & Hc). exists (p, cs). split; [|done].
    apply list_elem_of_fmap. eauto.
Qed.

Lemma child_map_lookup key :
  _create_child_to_parent_map mapping !! key
  = fst <$> last (filter (λ pc, clean_name pc.2 = key) (alias_pairs mapping)).
Proof.
  unfold _create_child_to_parent_map.
  rewrite create_child_map_pairs, lookup_foldl_insert.
  by destruct (last _).
Qed.

Lemma child_map_range key p :
  _create_child_to_parent_map mapping !! key = Some p →
  ∃ cs c, (p, cs) ∈ mapping ∧ c ∈ cs ∧ clean_name c = key.
Proof.
  rewrite child_map_lookup.
  destruct (last _) as [[p' c]|] eqn:Hl; [|done]. simpl. intros [= ->].
  apply last_Some_elem_of, list_elem_of_filter in Hl as [Hk Hin].
  apply elem_of_alias_pairs in Hin as (cs & Hm & Hc). eauto.
Qed.

Lemma child_map_dom p cs c :
  (p, cs) ∈ mapping → c ∈ cs →
  is_Some (_create_child_to_parent_map mapping !! clean_name c).
Proof.
  intros Hm Hc. rewrite child_map_lookup.
  destruct (last _) as [pc|] eqn:Hl; [done|].
  apply last_None in Hl.
  assert ((p, c) ∈ filter (λ pc, clean_name pc.2 = clean_name c)
                     (alias_pairs mapping)) as Hin.
  { apply list_elem_of_filter. split; [done|].
    apply elem_of_alias_pairs. eauto. }
  rewrite Hl in Hin. by apply elem_of_nil in Hin.
Qed.

(** X6. The inverted map holds exactly the cleaned aliases: a key maps to
    a parent only if some alias of that parent cleans to the key; every
    declared alias, cleaned, is a key; and an alias whose cleaned form is
    declared under one parent only maps to that parent. *)
Theorem child_map_aliases_resolve :
  (∀ key p, _create_child_to_parent_map mapping !! key = Some p →
     ∃ cs c, (p, cs) ∈ mapping ∧ c ∈ cs ∧ clean_name c = key)
  ∧ (∀ p cs c, (p, cs) ∈ mapping → c ∈ cs →
       is_Some (_create_child_to_parent_map mapping !! clean_name c))
  ∧ (∀ p cs c, (p, cs) ∈ mapping → c ∈ cs →
       (∀ p' cs' c', (p', cs') ∈ mapping → c' ∈ cs' →
          clean_name c' = clean_name c → p' = p) →
       _create_child_to_parent_map mapping !! clean_name c = Some p).
Proof.
  split; [apply child_map_range|]. split; [apply child_map_dom|].
  intros p cs c Hm Hc Huniq.
  destruct (child_map_dom p cs c Hm Hc) as [p' Hp']. rewrite Hp'. f_equal.
  destruct (child_map_range _ _ Hp') as (cs' & c' & Hm' & Hc' & Hk). eauto.
Qed.
End inverted_map.

Section engine_errors.
Context {rt : PyRuntime}.
Variable mapping : list (list N * list (list N)).






(** X14. [groupby('parent_name')] loses no record and duplicates none:
    the groups of the distinct parents, put together, are the frame that
    reached the grouping, up to order. *)
Theorem every_record_in_one_group (sdf : list NamedRecord) :
  mjoin (group_of mapping sdf <$> group_keys mapping sdf) ≡ₚ sdf.
Proof.
  assert (∀ (keys : list (list N)) (l : list NamedRecord),
    NoDup keys →
    (∀ r, r ∈ l → ∃ k, k ∈ keys ∧ resolved_parent mapping sdf r = Some k) →
    mjoin ((λ k, filter (λ r, resolved_parent mapping sdf r = Some k) l) <$> keys)
    ≡ₚ l) as Hgen.
  { induction keys as [|k keys IH]; intros l Hnd Hcov.
    - destruct l as [|r l]; [done|].
      destruct (Hcov r) as (k & Hk & _); [apply list_elem_of_here|].
      by apply elem_of_nil in Hk.
    - apply NoDup_cons in Hnd as [Hk Hnd]. csimpl.
      etransitivity;
        [|apply (filter_app_complement
                   (λ r, resolved_parent mapping sdf r = Some k) l)].
      apply Permutation_app; [done|].
      etransitivity;
        [|apply (IH (filter (λ r, ¬ resolved_parent mapping sdf r = Some k) l) Hnd)].
      + assert (∀ A (x y : list A), x = y → x ≡ₚ y) as Heq by (by intros ??? ->).
        apply Heq. f_equal. apply list_fmap_ext.
        intros _ k' Hk'%list_elem_of_lookup_2.
        rewrite list_filter_filter. apply list_filter_iff.
        intros r. split; [|tauto]. intros Hr. split; [done|].
        rewrite Hr. intros [= ->]. done.
      + intros r [Hne Hr]%list_elem_of_filter.
        destruct (Hcov r Hr) as (k' & Hk' & Hp).
        exists k'. split; [|done].
        apply elem_of_cons in Hk' as [->|]; [done|done]. }
  unfold group_of. apply Hgen.
  - apply NoDup_group_keys.
  - intros r Hr. destruct (resolved_parent_is_Some mapping sdf r Hr) as [p Hp].
    exists p. split; [|done]. apply elem_of_group_keys. eauto.
Qed.
End engine_errors.

(** X7. Two master tables, built from any two frames with any two alias
    tables and runtimes, give the same parent name the same
    [parent_product_id]. *)
Theorem parent_ids_agree_across_tables {rt1 rt2 : PyRuntime}
    (mapping1 mapping2 : list (list N * list (list N)))
    (df1 : list (@RawRecord rt1)) (df2 : list (@RawRecord rt2))
    (T1 T2 : list MasterRow) (row1 row2 : MasterRow) :
  create_parent_child_master_table mapping1 df1 = Ok T1 →
  create_parent_child_master_table mapping2 df2 = Ok T2 →
  row1 ∈ T1 → row2 ∈ T2 →
  parent_product_name row1 = parent_product_name row2 →
  parent_product_id row1 = parent_product_id row2.
Proof.
  intros HT1 HT2 Hr1 Hr2 Hn.
  destruct (master_row_inv mapping1 df1 T1 row1 HT1 Hr1)
    as (k1 & _ & Hn1 & _ & _ & _ & Hid1).
  destruct (master_row_inv mapping2 df2 T2 row2 HT2 Hr2)
    as (k2 & _ & Hn2 & _ & _ & _ & Hid2).
  rewrite <- Hn1 in Hid1. rewrite <- Hn2, <- Hn, Hid1 in Hid2.
  by injection Hid2.
Qed.

(** ** Further properties: order of the input *)

Lemma str_le_antisym a b : str_le a b → str_le b a → a = b.
Proof.
  unfold str_le. rewrite (str_compare_antisym a b).
  destruct (str_compare a b) eqn:E; simpl; try done.
  intros _ _. by apply str_compare_eq.
Qed.

Lemma Forall2_common_left {A B C} (R1 : A → B → Prop) (R2 : A → C → Prop)
    (P : B → C → Prop) (l : list A) (k1 : list B) (k2 : list C) :
  Forall2 R1 l k1 → Forall2 R2 l k2 →
  (∀ x a b, x ∈ l → R1 x a → R2 x b → P a b) →
  Forall2 P k1 k2.
Proof.
  intros H1. revert k2. induction H1 as [|x a l k1 Hxa _ IH]; intros k2 H2 HP.
  - inversion H2. constructor.
  - inversion H2 as [|? b ? k2' Hxb H2']; subst. constructor.
    + eapply HP; [apply list_elem_of_here|done|done].
    + apply IH; [done|]. intros y a' b' Hy. apply HP. by apply list_elem_of_further.
Qed.

Section order.
Context {rt : PyRuntime}.
Variable mapping : list (list N * list (list N)).

Lemma surviving_Permutation (df df' : list RawRecord) :
  df ≡ₚ df' → surviving df ≡ₚ surviving df'.
Proof.
  intros Hp. unfold surviving, drop_zero, dropna_name. by rewrite Hp.
Qed.

Lemma Forall2_names_eq (grp : list N → list NamedRecord)
    (dates : NamedRecord → option Z) (keys : list (list N)) rows :
  Forall2 (row_of_group mapping)
    ((λ key, {| parent_name := key;
                group_ids := agg_ids (grp key);
                group_names := agg_names (grp key);
                group_created_at := agg_created_at (dates <$> grp key) |})
     <$> keys) rows →
  parent_product_name <$> rows = keys.
Proof.
  intros H. rewrite Forall2_fmap_l in H.
  induction H as [|k row ks rows Hk _ IH]; csimpl; [done|].
  destruct Hk as (_ & -> & _). simpl. by rewrite IH.
Qed.

(** The final sort finds the rows already in order. *)
Lemma create_Ok_in_group_order df T :
  create_parent_child_master_table mapping df = Ok T →
  Forall2 (row_of_group mapping) (parent_groups mapping (surviving df)) T.
Proof.
  intros HT. destruct (create_Ok_rows mapping df T HT) as (rows & Hrows & HTr).
  enough (rows = T) as <- by exact Hrows.
  assert (parent_product_name <$> rows = group_keys mapping (surviving df)) as Hn.
  { apply (Forall2_names_eq (group_of mapping (surviving df))
             (parsed_created_at (surviving df))).
    exact Hrows. }
  assert (NoDup (parent_product_name <$> rows)) as Hnd
    by (rewrite Hn; apply NoDup_group_keys).
  apply (StronglySorted_unique_strong row_le).
  - intros x1 x2 Hx1 Hx2 H12 H21.
    apply (NoDup_fmap_eq parent_product_name rows); [done|done| |].
    + rewrite HTr in Hx2. unfold sort_values in Hx2.
      by rewrite merge_sort_Permutation in Hx2.
    + by apply str_le_antisym.
  - assert (StronglySorted str_le (parent_product_name <$> rows)) as Hs.
    { rewrite Hn. unfold group_keys, sorted.
      apply StronglySorted_merge_sort; apply _. }
    clear -Hs. induction rows as [|r rows IH]; [constructor|].
    csimpl in Hs. apply StronglySorted_inv in Hs as [Hs Hr].
    constructor; [by apply IH|].
    rewrite Forall_fmap in Hr. exact Hr.
  - rewrite HTr. unfold sort_values. apply StronglySorted_merge_sort.
    + intros a b c. unfold row_le. apply str_le_trans.
    + intros a b. unfold row_le. apply str_le_total.
  - rewrite HTr. unfold sort_values. by rewrite merge_sort_Permutation.
Qed.

(** X12. When the cleaned name of every surviving record is a key of the
    alias table, the rows of the master table (identifier, parent name,
    child ids, child names, possible names) do not depend on the order of
    the rows of the input frame. *)
Theorem mapped_rows_ignore_input_order df df' T T' :
  df ≡ₚ df' →
  (∀ r, r ∈ surviving df →
     is_Some (CHILD_TO_PARENT_MAP mapping !! cleaned_name r)) →
  create_parent_child_master_table mapping df = Ok T →
  create_parent_child_master_table mapping df' = Ok T' →
  Forall2 same_identity T T'.
Proof.
  intros Hperm Hmapped HT HT'.
  pose proof (surviving_Permutation df df' Hperm) as Hs.
  set (s := surviving df) in *. set (s' := surviving df') in *.
  assert (∀ r, r ∈ s → resolved_parent mapping s r = resolved_parent mapping s' r)
    as Hres.
  { intros r Hr. unfold resolved_parent, parent_name_from_map.
    destruct (Hmapped r Hr) as [p Hp]. by rewrite Hp. }
  assert (∀ key r, r ∈ group_of mapping s key ↔ r ∈ group_of mapping s' key)
    as Hgrp.
  { intros key r. rewrite !elem_of_group_of. split.
    - intros [Hr Hp]. split; [by rewrite <- Hs|]. by rewrite <- Hres.
    - intros [Hr Hp]. rewrite <- Hs in Hr. split; [done|]. by rewrite Hres. }
  assert (group_keys mapping s = group_keys mapping s') as Hkeys.
  { unfold group_keys. apply sorted_unique_ext. intros x.
    rewrite !list_elem_of_omap. split.
    - intros (r & Hr & Hp). exists r. split; [by rewrite <- Hs|].
      by rewrite <- Hres.
    - intros (r & Hr & Hp). rewrite <- Hs in Hr. exists r. split; [done|].
      by rewrite Hres. }
  pose proof (create_Ok_in_group_order df T HT) as H1.
  pose proof (create_Ok_in_group_order df' T' HT') as H2.
  fold s in H1. fold s' in H2.
  unfold parent_groups in H1, H2. rewrite <- Hkeys in H2.
  rewrite Forall2_fmap_l in H1. rewrite Forall2_fmap_l in H2.
  eapply Forall2_common_left; [exact H1|exact H2|].
  intros key a b _ (Ha1 & Ha2 & Ha3 & Ha4 & Ha5 & _) (Hb1 & Hb2 & Hb3 & Hb4 & Hb5 & _).
  simpl in *. unfold same_identity.
  rewrite Ha2, Hb2, Ha3, Hb3, Ha4, Hb4, Ha5, Hb5.
  split; [|split; [done|split; [|split; [|done]]]].
  - rewrite Ha1 in Hb1. by injection Hb1.
  - unfold agg_ids. apply sorted_unique_ext. intros x.
    rewrite !list_elem_of_fmap. split; intros (r & -> & Hr); exists r;
      (split; [done|]); by apply Hgrp.
  - unfold agg_names. apply sorted_unique_ext. intros x.
    rewrite !list_elem_of_fmap. split; intros (r & -> & Hr); exists r;
      (split; [done|]); by apply Hgrp.
Qed.
End order.

(** ** Further properties: the text of an identifier *)

Example validate_uuid_Potato :
  validate_uuid (py "8e63ce33-3cbc-5e33-932b-485f2551426d") = true
  ∧ validate_uuid (py "8E63CE33-3CBC-5E33-932B-485F2551426D") = true
  ∧ validate_uuid (py "8e63ce33-3cbc-5e33-932b-485f2551426d" ++ [0x0A]) = true
  ∧ validate_uuid (py "8e63ce33-3cbc-5e33-932b-485f2551426d ") = false
  ∧ validate_uuid (py "8e63ce333cbc5e33932b485f2551426d") = false.
Proof. vm_compute. done. Qed.

Lemma hex_digit_lower d : d < 16 → is_lower_hex (hex_digit d).
Proof.
  intros Hd. unfold is_lower_hex, hex_digit.
  destruct (N.ltb_spec d 10); lia.
Qed.

Lemma is_lower_hex_ci c : is_lower_hex c → is_hex_ci c = true.
Proof.
  unfold is_lower_hex, is_hex_ci. intros [[H1 H2]|[H1 H2]].
  - apply N.leb_le in H1, H2. by rewrite H1, H2.
  - apply N.leb_le in H1, H2. rewrite H1, H2. by rewrite orb_true_r.
Qed.

Lemma shiftr4_byte o : is_byte o → N.shiftr o 4 < 16.
Proof.
  unfold is_byte. intros Ho. rewrite N.shiftr_div_pow2. change (2 ^ 4) with 16.
  apply N.Div0.div_lt_upper_bound. lia.
Qed.

Lemma land15_lt o : N.land o 0xF < 16.
Proof.
  change 0xF with (N.ones 4). rewrite N.land_ones. by apply N.mod_upper_bound.
Qed.

Lemma hex_octet_lower o :
  is_byte o → Forall is_lower_hex (hex_octet o).
Proof.
  intros Ho. unfold hex_octet.
  apply Forall_cons. split; [by apply hex_digit_lower, shiftr4_byte|].
  apply Forall_cons. split; [apply hex_digit_lower, land15_lt|constructor].
Qed.

Lemma hex_bytes_lower bs :
  Forall is_byte bs → Forall is_lower_hex (bs ≫= hex_octet).
Proof.
  induction 1 as [|o bs Ho _ IH]; [constructor|].
  rewrite bind_cons. apply Forall_app. split; [by apply hex_octet_lower|done].
Qed.

Lemma length_hex_bytes bs : length (bs ≫= hex_octet) = (2 * length bs)%nat.
Proof.
  induction bs as [|o bs IH]; [done|].
  rewrite bind_cons, length_app, IH. simpl. lia.
Qed.

Lemma match_hex_app (n : nat) (a r : list N) :
  length a = n → Forall is_lower_hex a → match_hex n (a ++ r) = Some r.
Proof.
  revert a. induction n as [|n IH]; intros [|c a] Hl Ha; simpl in *; try done.
  apply Forall_cons in Ha as [Hc Ha]. rewrite (is_lower_hex_ci c Hc).
  apply IH; [lia|done].
Qed.

(** The text of sixteen octets passes the pattern. *)
Lemma validate_uuid_text (octets : list N) :
  length octets = 16%nat → Forall is_byte octets →
  validate_uuid (rfc_uuid_text octets) = true.
Proof.
  intros Hlen Hb. unfold rfc_uuid_text, validate_uuid, match_pieces, uuid_pattern.
  pose proof (hex_bytes_lower octets Hb) as Hhex.
  pose proof (length_hex_bytes octets) as Hl. rewrite Hlen in Hl.
  set (hex := octets ≫= hex_octet) in *. clearbody hex.
  cbn [foldl].
  rewrite match_hex_app;
    [|rewrite length_take; lia|by apply Forall_take].
  cbn [match_hyphen app]. change (0x2D =? 0x2D) with true. cbv iota.
  rewrite match_hex_app;
    [|rewrite length_take, length_drop; lia|by apply Forall_take, Forall_drop].
  cbn [match_hyphen app]. change (0x2D =? 0x2D) with true. cbv iota.
  rewrite match_hex_app;
    [|rewrite length_take, length_drop; lia|by apply Forall_take, Forall_drop].
  cbn [match_hyphen app]. change (0x2D =? 0x2D) with true. cbv iota.
  rewrite match_hex_app;
    [|rewrite length_take, length_drop; lia|by apply Forall_take, Forall_drop].
  cbn [match_hyphen app]. change (0x2D =? 0x2D) with true. cbv iota.
  rewrite <- (app_nil_r (drop 20 hex)).
  rewrite match_hex_app; [done|rewrite length_drop; lia|by apply Forall_drop].
Qed.

Lemma forallb_below (f : N → bool) (n : nat) :
  forallb f (N.of_nat <$> seq 0 n) = true → ∀ x, x < N.of_nat n → f x = true.
Proof.
  intros Hall x Hx. rewrite forallb_forall in Hall. apply Hall.
  apply list_elem_of_In, list_elem_of_fmap. exists (N.to_nat x).
  split; [lia|]. apply elem_of_seq. lia.
Qed.

Lemma land_ones_lt o (k : N) : N.land o (N.ones k) < 2 ^ k.
Proof. rewrite N.land_ones. apply N.mod_upper_bound. by apply N.pow_nonzero. Qed.

Lemma version_digit o :
  hex_digit (N.shiftr (N.lor (N.land o 0x0F) 0x50) 4) = 0x35.
Proof.
  pose proof (land_ones_lt o 4) as Hlt. change (N.ones 4) with 0xF in Hlt.
  generalize dependent (N.land o 0xF). intros x Hx.
  apply N.eqb_eq.
  apply (forallb_below
           (λ x, hex_digit (N.shiftr (N.lor x 0x50) 4) =? 0x35) 16);
    [vm_compute; reflexivity|exact Hx].
Qed.

Lemma variant_digit o :
  hex_digit (N.shiftr (N.lor (N.land o 0x3F) 0x80) 4)
  ∈ [0x38; 0x39; 0x61; 0x62].
Proof.
  pose proof (land_ones_lt o 6) as Hlt. change (N.ones 6) with 0x3F in Hlt.
  generalize dependent (N.land o 0x3F). intros x Hx.
  pose proof (forallb_below
    (λ x, let v := hex_digit (N.shiftr (N.lor x 0x80) 4) in
          (v =? 0x38) || (v =? 0x39) || (v =? 0x61) || (v =? 0x62)) 64
    eq_refl x Hx) as Hv.
  cbv zeta in Hv.
  rewrite !orb_true_iff, !N.eqb_eq in Hv.
  destruct Hv as [[[->| ->]| ->]| ->]; repeat constructor.
Qed.

Lemma lookup_hex_bytes bs (i : nat) o :
  bs !! i = Some o →
  (bs ≫= hex_octet) !! (2 * i)%nat = Some (hex_digit (N.shiftr o 4)).
Proof.
  revert i. induction bs as [|b bs IH]; intros [|i] Hi; try done.
  - by injection Hi as ->.
  - rewrite bind_cons. replace (2 * S i)%nat with (S (S (2 * i))) by lia.
    simpl. by apply IH.
Qed.

Lemma uuid_text_positions (hex : list N) :
  length hex = 32%nat →
  let u := take 8 hex ++ [0x2D] ++ take 4 (drop 8 hex) ++ [0x2D]
           ++ take 4 (drop 12 hex) ++ [0x2D] ++ take 4 (drop 16 hex) ++ [0x2D]
           ++ drop 20 hex in
  length u = 36%nat
  ∧ u !! 8%nat = Some 0x2D ∧ u !! 13%nat = Some 0x2D
  ∧ u !! 18%nat = Some 0x2D ∧ u !! 23%nat = Some 0x2D
  ∧ u !! 14%nat = hex !! 12%nat ∧ u !! 19%nat = hex !! 16%nat
  ∧ ∀ (i : nat) c, u !! i = Some c →
      i ∈ [8; 13; 18; 23]%nat ∨ c ∈ hex.
Proof.
  intros Hl.
  do 32 (destruct hex as [|? hex]; [simpl in Hl; lia|]).
  destruct hex; [|simpl in Hl; lia]. clear Hl. cbv zeta.
  cbn [take drop app length lookup list_lookup].
  repeat split.
  intros i c Hi.
  do 36 (destruct i as [|i];
    [simpl in Hi; injection Hi as <-;
     first [left; repeat constructor; fail | right; repeat constructor]|]).
  done.
Qed.

(** What [_generate_stable_uuid] returns is the text of sixteen octets, of
    which octet 6 carries the version and octet 8 the variant. *)
Lemma generate_stable_uuid_octets name u :
  _generate_stable_uuid name = Ok u →
  ∃ octets o6 o8, u = rfc_uuid_text octets
    ∧ length octets = 16%nat ∧ Forall is_byte octets
    ∧ octets !! 6%nat = Some (N.lor (N.land o6 0x0F) 0x50)
    ∧ octets !! 8%nat = Some (N.lor (N.land o8 0x3F) 0x80).
Proof.
  unfold _generate_stable_uuid, uuid5.
  destruct (utf8_encode name) as [b|]; cbn [result_map]; [|intros [=]].
  generalize (length_sha1 (UUID_bytes NAMESPACE_UUID ++ b))
             (Forall_sha1 (UUID_bytes NAMESPACE_UUID ++ b)).
  generalize (sha1 (UUID_bytes NAMESPACE_UUID ++ b)).
  intros d Hd Hb [= <-].
  rewrite UUID_str_of_bytes by done.
  assert (length (take 16 d) = 16%nat) as Hlen by (rewrite length_take; lia).
  assert (Forall is_byte (take 16 d)) as Hh by by apply Forall_take.
  generalize dependent (take 16 d). intros h Hlen Hh.
  destruct (lookup_lt_is_Some_2 h 6) as [o6 Ho6]; [lia|].
  destruct (lookup_lt_is_Some_2 h 8) as [o8 Ho8]; [lia|].
  eexists _, o6, o8. split; [reflexivity|]. split; [by rewrite !length_alter|].
  split; [|split].
  - apply Forall_alter; [apply Forall_alter; [done|]|].
    + intros o _ Ho. change 15 with (N.lxor 0xf0 0xFF).
      rewrite <- (ldiff_byte_land o 0xf0 Ho eq_refl).
      by apply set_byte_is_byte.
    + intros o _ Ho. change 63 with (N.lxor 0xc0 0xFF).
      rewrite <- (ldiff_byte_land o 0xc0 Ho eq_refl).
      by apply set_byte_is_byte.
  - rewrite list_lookup_alter_ne by done. by rewrite list_lookup_alter, Ho6.
  - rewrite list_lookup_alter.
    rewrite list_lookup_alter_ne by done. by rewrite Ho8.
Qed.

(** X8. An identifier returned by [_generate_stable_uuid] has 36
    characters, hyphens at positions 8, 13, 18 and 23, the version digit
    [5] at position 14, a variant digit among [8 9 a b] at position 19, and
    lower-case hexadecimal digits elsewhere. *)
Theorem generate_stable_uuid_shape (name u : list N) :
  _generate_stable_uuid name = Ok u →
  length u = 36%nat
  ∧ u !! 8%nat = Some 0x2D ∧ u !! 13%nat = Some 0x2D
  ∧ u !! 18%nat = Some 0x2D ∧ u !! 23%nat = Some 0x2D
  ∧ u !! 14%nat = Some 0x35
  ∧ (∃ v, u !! 19%nat = Some v ∧ v ∈ [0x38; 0x39; 0x61; 0x62])
  ∧ ∀ (i : nat) c, u !! i = Some c →
      i ∈ [8; 13; 18; 23]%nat ∨ is_lower_hex c.
Proof.
  intros (octets & o6 & o8 & -> & Hlen & Hb & H6 & H8)%generate_stable_uuid_octets.
  unfold rfc_uuid_text.
  pose proof (length_hex_bytes octets) as Hl. rewrite Hlen in Hl.
  destruct (uuid_text_positions _ Hl) as (L & P8 & P13 & P18 & P23 & P14 & P19 & Pall).
  cbv zeta in *.
  split; [done|]. do 4 (split; [done|]). split; [|split].
  - rewrite P14. change 12%nat with (2 * 6)%nat.
    rewrite (lookup_hex_bytes _ _ _ H6). f_equal. apply version_digit.
  - eexists. split; [|apply (variant_digit o8)].
    rewrite P19. change 16%nat with (2 * 8)%nat.
    by rewrite (lookup_hex_bytes _ _ _ H8).
  - intros i c Hi. destruct (Pall i c Hi) as [?|Hc]; [by left|right].
    pose proof (hex_bytes_lower octets Hb) as Hhex.
    by eapply Forall_forall in Hhex.
Qed.

(** X9. [generate_parent_id] of [add_new_product.py] computes the same
    identifier as [_generate_stable_uuid], and every identifier they return
    is accepted by [validate_uuid] of [validate_mapping.py]. *)
Theorem generated_ids_pass_validate_uuid (name u : list N) :
  generate_parent_id name = _generate_stable_uuid name
  ∧ (_generate_stable_uuid name = Ok u → validate_uuid u = true).
Proof.
  split; [reflexivity|].
  intros (octets & o6 & o8 & -> & Hlen & Hb & _)%generate_stable_uuid_octets.
  by apply validate_uuid_text.
Qed.

(** ** Further properties: whitespace *)

Lemma single_spaced_lookup b t (i : nat) c :
  single_spaced b t = true → t !! i = Some c → is_space c = true →
  c = SPACE ∧ ∀ d, t !! S i = Some d → is_space d = false.
Proof.
  revert b i. induction t as [|x t IH]; intros b i Hs Hi Hc; [done|].
  simpl in Hs. destruct i as [|i].
  - injection Hi as ->. rewrite Hc in Hs.
    apply andb_prop in Hs as [Hs1 Hs3]. apply andb_prop in Hs1 as [Hs1 _].
    apply N.eqb_eq in Hs1. split; [done|].
    intros d Hd. destruct t as [|y t]; [done|]. injection Hd as ->.
    simpl in Hs3. destruct (is_space d); [|done].
    by rewrite andb_false_r in Hs3.
  - destruct (is_space x).
    + apply andb_prop in Hs as [_ Hs]. by eapply IH.
    + by eapply IH.
Qed.

Lemma filter_nonspace_sub_ws b s :
  filter (λ c, is_space c = false) (sub_ws b s)
  = filter (λ c, is_space c = false) s.
Proof.
  revert b. induction s as [|c s IH]; intros b; [done|]. simpl.
  destruct (is_space c) eqn:Hc.
  - rewrite (filter_cons_False _ c) by (by rewrite Hc).
    destruct b; [apply IH|].
    rewrite filter_cons_False by done. apply IH.
  - rewrite !filter_cons_True by done. f_equal. apply IH.
Qed.

Lemma filter_nonspace_lstrip s :
  filter (λ c, is_space c = false) (lstrip s)
  = filter (λ c, is_space c = false) s.
Proof.
  induction s as [|c s IH]; [done|]. simpl.
  destruct (is_space c) eqn:Hc; [|done].
  by rewrite (filter_cons_False _ c) by (by rewrite Hc).
Qed.

Lemma filter_nonspace_rstrip s :
  filter (λ c, is_space c = false) (rstrip s)
  = filter (λ c, is_space c = false) s.
Proof.
  unfold rstrip.
  by rewrite filter_reverse, filter_nonspace_lstrip, <- filter_reverse,
    reverse_involutive.
Qed.

(** X11. In [re.sub(r'\s+', ' ', x).strip()] (lines 83 and 115, before
    [lower]) no whitespace is left at either end, every whitespace
    character is a U+0020 followed by a non-whitespace character, and the
    non-whitespace characters of [x] are kept, in order. *)
Theorem cleaned_whitespace_shape (s : list N) :
  let t := strip (re_sub_ws s) in
  nonspace_end (head t) ∧ nonspace_end (last t)
  ∧ (∀ (i : nat) c, t !! i = Some c → is_space c = true →
       c = SPACE ∧ ∀ d, t !! S i = Some d → is_space d = false)
  ∧ filter (λ c, is_space c = false) t = filter (λ c, is_space c = false) s.
Proof.
  cbv zeta. destruct (ws_normal_strip_sub s) as (H1 & H2 & H3).
  split; [done|]. split; [done|]. split.
  - intros i c. by apply (single_spaced_lookup false).
  - unfold strip, re_sub_ws.
    by rewrite filter_nonspace_rstrip, filter_nonspace_lstrip,
      filter_nonspace_sub_ws.
Qed.

(** ** Further properties: the pipeline *)

Section pipeline_facts.
Context {rt : PyRuntime}.
Variable mapping : list (list N * list (list N)).
Variable to_sql :
  list MasterRow → option (list MasterRow) → option (option (list MasterRow)).

Lemma dropna_id_name_nil (df : list SourceRecord) :
  Forall (λ r, src_product_id r = None ∨ src_product_name r = None) df →
  dropna_id_name df = [].
Proof.
  induction 1 as [|r df Hr _ IH]; [done|].
  unfold dropna_id_name in *. csimpl. rewrite IH.
  destruct Hr as [-> | ->]; [done|]. by destruct (src_product_id r).
Qed.

(** X13. When no row of the two sources has both an id and a name, the
    pipeline finishes without calling [to_sql]: the hub table is left as it
    was, the previous master table is not replaced by an empty one. *)
Theorem pipeline_without_complete_record_keeps_hub
    (clickhouse_df supabase_df : list SourceRecord)
    (hub : option (list MasterRow)) :
  Forall (λ r, src_product_id r = None ∨ src_product_name r = None)
         (clickhouse_df ++ supabase_df) →
  run_unified_pipeline mapping to_sql clickhouse_df supabase_df hub
  = PipelineFinished hub.
Proof.
  intros Hnull. unfold run_unified_pipeline.
  by rewrite (dropna_id_name_nil _ Hnull).
Qed.

End pipeline_facts.

(** ** Further properties: the filter on ['0'], the curated lists *)

Lemma lstrip_spaces_app a s :
  Forall (λ c, is_space c = true) a → lstrip (a ++ s) = lstrip s.
Proof. induction 1 as [|c a Hc _ IH]; simpl; [done|]. by rewrite Hc. Qed.

Lemma filter_nonspace_singleton y c :
  filter (λ c, is_space c = false) y = [c] →
  ∃ a b, y = a ++ c :: b ∧ is_space c = false
         ∧ Forall (λ c, is_space c = true) a
         ∧ Forall (λ c, is_space c = true) b.
Proof.
  induction y as [|x y IH]; [done|].
  destruct (is_space x) eqn:Hx.
  - rewrite filter_cons_False by (by rewrite Hx).
    intros (a & b & -> & Hc & Ha & Hb)%IH.
    exists (x :: a), b. split; [done|]. split; [done|]. split; [|done].
    by constructor.
  - rewrite filter_cons_True by done. intros [= -> Hy].
    exists [], y. split; [done|]. split; [done|]. split; [constructor|].
    apply Forall_forall. intros d Hd.
    destruct (is_space d) eqn:Hsd; [done|].
    assert (d ∈ filter (λ c, is_space c = false) y) as Hin
      by (by apply list_elem_of_filter).
    rewrite Hy in Hin. by apply elem_of_nil in Hin.
Qed.

Lemma strip_singleton y c :
  is_space c = false →
  strip y = [c] ↔ filter (λ c, is_space c = false) y = [c].
Proof.
  intros Hc. split.
  - intros Hs. unfold strip in Hs.
    rewrite <- (filter_nonspace_lstrip y), <- (filter_nonspace_rstrip (lstrip y)), Hs.
    by rewrite filter_cons_True, filter_nil.
  - intros (a & b & -> & _ & Ha & Hb)%filter_nonspace_singleton.
    unfold strip. rewrite lstrip_spaces_app by done.
    simpl. rewrite Hc. unfold rstrip.
    rewrite reverse_cons, lstrip_spaces_app by (by apply Forall_reverse).
    simpl. by rewrite Hc.
Qed.

(** X16. The test of line 109 and the grouping key of line 115 agree on
    ['0']: the stripped name is ['0'] exactly when the name with its
    whitespace collapsed and stripped is ['0'], so no surviving record has
    that key before lower-casing. *)
Theorem zero_filter_agrees_with_grouping_key (x : list N) :
  strip x = py "0" ↔ strip (re_sub_ws x) = py "0".
Proof.
  change (py "0") with [0x30].
  rewrite !strip_singleton by done.
  unfold re_sub_ws. by rewrite filter_nonspace_sub_ws.
Qed.

Section curated.
Context {rt : PyRuntime}.
Variable mapping : list (list N * list (list N)).

Lemma possible_child_names_declared p cs :
  NoDup (mapping.*1) → (p, cs) ∈ mapping →
  possible_child_names mapping p = cs.
Proof.
  intros Hnd Hin. unfold possible_child_names.
  destruct (head _) as [[p' cs']|] eqn:Hh.
  - simpl. apply head_Some in Hh as [l Hl].
    assert ((p', cs') ∈ filter (λ e, e.1 = p) mapping) as Hin'
      by (rewrite Hl; apply list_elem_of_here).
    apply list_elem_of_filter in Hin' as [Hp Hin']. simpl in Hp. subst p'.
    assert ((p, cs') = (p, cs)) as [= ->]; [|done].
    by apply (NoDup_fmap_eq fst mapping).
  - apply head_None in Hh.
    assert ((p, cs) ∈ filter (λ e, e.1 = p) mapping) as Hin'
      by (by apply list_elem_of_filter).
    rewrite Hh in Hin'. by apply elem_of_nil in Hin'.
Qed.

(** X15. With distinct parents in the authoring structure, a surviving
    record that resolves through the alias table sits in a row whose
    [all_possible_child_names] holds an alias with the same cleaned name as
    the record's raw name. *)
Theorem alias_children_covered_by_curated_list df T r p :
  NoDup (mapping.*1) →
  create_parent_child_master_table mapping df = Ok T →
  r ∈ surviving df →
  CHILD_TO_PARENT_MAP mapping !! cleaned_name r = Some p →
  ∃ row alias, row ∈ T ∧ parent_product_name row = p
    ∧ rec_name r ∈ child_product_names row
    ∧ alias ∈ all_possible_child_names row
    ∧ clean_name alias = clean_name (rec_name r).
Proof.
  intros Hnd HT Hr Hp.
  assert (resolved_parent mapping (surviving df) r = Some p) as Hres.
  { unfold resolved_parent, parent_name_from_map. by rewrite Hp. }
  destruct (record_in_its_row mapping df T r p HT Hr Hres)
    as (row & Hrow & Hn & _ & Hc).
  destruct (child_map_range mapping _ _ Hp) as (cs & c & Hm & Hcin & Hk).
  exists row, c. split; [done|]. split; [done|]. split; [done|]. split; [|done].
  destruct (create_Ok_rows mapping df T HT) as (rows & Hrows & ->).
  unfold sort_values in Hrow. rewrite merge_sort_Permutation in Hrow.
  apply list_elem_of_lookup in Hrow as [i Hi].
  destruct (Forall2_lookup_r _ _ _ _ _ Hrows Hi) as (g & _ & Hg).
  destruct Hg as (_ & Hname & _ & _ & Hall & _).
  rewrite Hall, <- Hname, Hn.
  by rewrite (possible_child_names_declared p cs).
Qed.
End curated.

(** ** The further properties on concrete inputs *)

Lemma child_names_in_one_row_witness :
  create_parent_child_master_table demo_mapping demo_df = Ok demo_table
  ∧ (∀ r, r ∈ surviving demo_df →
       ∃ row, row ∈ demo_table ∧ rec_name r ∈ child_product_names row
              ∧ resolved_parent demo_mapping (surviving demo_df) r
                = Some (parent_product_name row))
  ∧ (∀ row1 row2 x, row1 ∈ demo_table → row2 ∈ demo_table →
       x ∈ child_product_names row1 → x ∈ child_product_names row2 →
       row1 = row2).
Proof.
  assert (create_parent_child_master_table demo_mapping demo_df = Ok demo_table)
    as H1 by (vm_compute; reflexivity).
  split; [exact H1|].
  exact (child_names_in_one_row demo_mapping demo_df demo_table H1).
Defined.

Lemma listed_children_passed_the_filter_witness :
  create_parent_child_master_table demo_mapping demo_df = Ok demo_table
  ∧ (∀ x, (∃ row, row ∈ demo_table ∧ x ∈ child_product_names row) ↔
        strip x ≠ py "0" ∧ ∃ r0, r0 ∈ demo_df ∧ raw_product_name r0 = Some x)
  ∧ (∀ x, (∃ row, row ∈ demo_table ∧ x ∈ child_product_ids row) ↔
        ∃ r0 n, r0 ∈ demo_df ∧ raw_product_name r0 = Some n
                ∧ strip n ≠ py "0" ∧ astype_str (raw_product_id r0) = x).
Proof.
  assert (create_parent_child_master_table demo_mapping demo_df = Ok demo_table)
    as H1 by (vm_compute; reflexivity).
  split; [exact H1|].
  exact (listed_children_passed_the_filter demo_mapping demo_df demo_table H1).
Defined.

Lemma one_row_per_resolved_parent_witness :
  create_parent_child_master_table demo_mapping demo_df = Ok demo_table
  ∧ parent_product_name <$> demo_table
    = group_keys demo_mapping (surviving demo_df)
  ∧ (∀ p, p ∈ parent_product_name <$> demo_table ↔
          ∃ r, r ∈ surviving demo_df
               ∧ resolved_parent demo_mapping (surviving demo_df) r = Some p)
  ∧ (demo_table = [] ↔ surviving demo_df = [])
  ∧ (length demo_table ≤ length (surviving demo_df))%nat.
Proof.
  assert (create_parent_child_master_table demo_mapping demo_df = Ok demo_table)
    as H1 by (vm_compute; reflexivity).
  split; [exact H1|].
  exact (one_row_per_resolved_parent demo_mapping demo_df demo_table H1).
Defined.


Lemma parent_ids_agree_across_tables_witness :
  ∃ row1 row2,
    create_parent_child_master_table demo_mapping demo_df = Ok demo_table
    ∧ create_parent_child_master_table [] farm_df = Ok farm_table
    ∧ row1 ∈ demo_table ∧ row2 ∈ farm_table
    ∧ parent_product_name row1 = parent_product_name row2
    ∧ parent_product_id row1 = parent_product_id row2.
Proof.
  assert (create_parent_child_master_table demo_mapping demo_df = Ok demo_table)
    as H1 by (vm_compute; reflexivity).
  assert (create_parent_child_master_table [] farm_df = Ok farm_table)
    as H2 by (vm_compute; reflexivity).
  assert (∃ row1 row2, demo_table !! 0%nat = Some row1
            ∧ farm_table !! 1%nat = Some row2
            ∧ parent_product_name row1 = parent_product_name row2)
    as (row1 & row2 & Hr1 & Hr2 & Hn).
  { do 2 eexists. split; [reflexivity|]. split; reflexivity. }
  apply list_elem_of_lookup_2 in Hr1, Hr2.
  exists row1, row2. do 5 (split; [done|]).
  exact (parent_ids_agree_across_tables demo_mapping [] demo_df farm_df
           demo_table farm_table row1 row2 H1 H2 Hr1 Hr2 Hn).
Defined.

Lemma generate_stable_uuid_shape_witness :
  let u := py "8e63ce33-3cbc-5e33-932b-485f2551426d" in
  _generate_stable_uuid (py "Potato") = Ok u
  ∧ length u = 36%nat
  ∧ u !! 8%nat = Some 0x2D ∧ u !! 13%nat = Some 0x2D
  ∧ u !! 18%nat = Some 0x2D ∧ u !! 23%nat = Some 0x2D
  ∧ u !! 14%nat = Some 0x35
  ∧ (∃ v, u !! 19%nat = Some v ∧ v ∈ [0x38; 0x39; 0x61; 0x62])
  ∧ ∀ (i : nat) c, u !! i = Some c →
      i ∈ [8; 13; 18; 23]%nat ∨ is_lower_hex c.
Proof.
  intros u.
  assert (_generate_stable_uuid (py "Potato") = Ok u) as H1
    by (vm_compute; reflexivity).
  split; [exact H1|].
  exact (generate_stable_uuid_shape (py "Potato") u H1).
Defined.

Lemma mapped_rows_ignore_input_order_witness :
  mapped_df ≡ₚ reverse mapped_df
  ∧ (∀ r, r ∈ surviving mapped_df →
       is_Some (CHILD_TO_PARENT_MAP demo_mapping !! cleaned_name r))
  ∧ create_parent_child_master_table demo_mapping mapped_df = Ok mapped_table
  ∧ create_parent_child_master_table demo_mapping (reverse mapped_df)
    = Ok mapped_table_reversed
  ∧ Forall2 same_identity mapped_table mapped_table_reversed.
Proof.
  assert (mapped_df ≡ₚ reverse mapped_df) as H0
    by (symmetry; apply reverse_Permutation).
  assert (∀ r, r ∈ surviving mapped_df →
       is_Some (CHILD_TO_PARENT_MAP demo_mapping !! cleaned_name r)) as H1.
  { apply Forall_forall. apply (bool_decide_unpack _). vm_compute. exact I. }
  assert (create_parent_child_master_table demo_mapping mapped_df
          = Ok mapped_table) as H2 by (vm_compute; reflexivity).
  assert (create_parent_child_master_table demo_mapping (reverse mapped_df)
          = Ok mapped_table_reversed) as H3 by (vm_compute; reflexivity).
  do 4 (split; [done|]).
  exact (mapped_rows_ignore_input_order demo_mapping mapped_df (reverse mapped_df)
           mapped_table mapped_table_reversed H0 H1 H2 H3).
Defined.

Lemma pipeline_without_complete_record_keeps_hub_witness :
  Forall (λ r, src_product_id r = None ∨ src_product_name r = None)
         (incomplete_source ++ [])
  ∧ run_unified_pipeline demo_mapping accepting_to_sql incomplete_source []
      (Some demo_table)
    = PipelineFinished (Some demo_table).
Proof.
  assert (Forall (λ r, src_product_id r = None ∨ src_product_name r = None)
            (incomplete_source ++ [])) as H1.
  { unfold incomplete_source. simpl.
    repeat (apply Forall_cons; split).
    - left. reflexivity.
    - right. reflexivity.
    - constructor. }
  split; [exact H1|].
  exact (pipeline_without_complete_record_keeps_hub demo_mapping accepting_to_sql
           incomplete_source [] (Some demo_table) H1).
Defined.

Lemma alias_children_covered_by_curated_list_witness :
  let r := {| rec_id := py "A2"; rec_name := py " tomato a ";
              rec_created_at := Some (py "20240103") |} in
  NoDup (demo_mapping.*1)
  ∧ create_parent_child_master_table demo_mapping demo_df = Ok demo_table
  ∧ r ∈ surviving demo_df
  ∧ CHILD_TO_PARENT_MAP demo_mapping !! cleaned_name r = Some (py "Tomato A")
  ∧ ∃ row alias, row ∈ demo_table ∧ parent_product_name row = py "Tomato A"
      ∧ rec_name r ∈ child_product_names row
      ∧ alias ∈ all_possible_child_names row
      ∧ clean_name alias = clean_name (rec_name r).
Proof.
  intros r.
  assert (NoDup (demo_mapping.*1)) as H0
    by (apply (bool_decide_unpack _); vm_compute; exact I).
  assert (create_parent_child_master_table demo_mapping demo_df = Ok demo_table)
    as H1 by (vm_compute; reflexivity).
  assert (r ∈ surviving demo_df) as H2.
  { apply list_elem_of_lookup. exists 1%nat. vm_compute. reflexivity. }
  assert (CHILD_TO_PARENT_MAP demo_mapping !! cleaned_name r
          = Some (py "Tomato A")) as H3 by (vm_compute; reflexivity).
  do 4 (split; [done|]).
  exact (alias_children_covered_by_curated_list demo_mapping demo_df demo_table
           r (py "Tomato A") H0 H1 H2 H3).
Defined.

(** ** Test vectors of the runtime model *)

Example sha1_abc :
  Uuid.hex_pad 40 (Uuid.int_from_bytes (Uuid.sha1 (py "abc")))
  = py "a9993e364706816aba3e25717850c26c9cd0d89d".
Proof. vm_compute. reflexivity. Qed.

Example sha1_two_blocks :
  Uuid.hex_pad 40 (Uuid.int_from_bytes (Uuid.sha1
    (py "abcdbcdecdefdefgefghfghighijhijkijkljklmklmnlmnomnopnopq")))
  = py "84983e441c3bd26ebaae4aa1f95129e5e54670f1".
Proof. vm_compute. reflexivity. Qed.

Example generate_stable_uuid_Potato :
  _generate_stable_uuid (py "Potato")
  = Ok (py "8e63ce33-3cbc-5e33-932b-485f2551426d").
Proof. vm_compute. reflexivity. Qed.
